(** * Freemaltson's whisky nights: session ids, host names, search and enrichment

    A shallow embedding of [app.py].  The Flask handlers become functions
    from the stored data (the contents of [data/sessions.json]) and the
    request to the new stored data and the response; the two collaborators
    that reach outside the process, the reference library file and the Dan
    Murphy's lookup, are arguments.

    Python exceptions are modelled by [None] in the [option] monad: a
    handler that raises persists nothing and answers with a server error.

    Strings are sequences of code points below 256; on that range [lower],
    [strip] and [isspace] are the ones of Python's [str]. *)

From stdpp Require Import gmap strings list fin_maps pretty sorting.
From Stdlib Require Import ZArith QArith Ascii.

Close Scope Q_scope.
Open Scope string_scope.
Open Scope list_scope.

(** ** Python strings *)

(** [str.isspace] on one character: TAB..CR, FS..US, space, NEL and NBSP. *)
Definition isspace (c : ascii) : bool :=
  let n := nat_of_ascii c in
  (Nat.leb 9 n && Nat.leb n 13) || (Nat.leb 28 n && Nat.leb n 32)
  || Nat.eqb n 133 || Nat.eqb n 160.

Fixpoint lstrip (s : string) : string :=
  match s with
  | String c s' => if isspace c then lstrip s' else s
  | EmptyString => EmptyString
  end.

Fixpoint rstrip (s : string) : string :=
  match s with
  | EmptyString => EmptyString
  | String c s' =>
      match rstrip s' with
      | EmptyString => if isspace c then EmptyString else String c EmptyString
      | t => String c t
      end
  end.

(** [s.strip()] *)
Definition strip (s : string) : string := rstrip (lstrip s).

(** Lower case of one character: A..Z and the upper case letters of
    Latin-1 (U+00C0..U+00DE but the multiplication sign U+00D7). *)
Definition lower_char (c : ascii) : ascii :=
  let n := nat_of_ascii c in
  if (Nat.leb 65 n && Nat.leb n 90)
     || (Nat.leb 192 n && Nat.leb n 222 && negb (Nat.eqb n 215))
  then ascii_of_nat (n + 32) else c.

(** [s.lower()] *)
Fixpoint lower (s : string) : string :=
  match s with
  | EmptyString => EmptyString
  | String c s' => String (lower_char c) (lower s')
  end.

(** [q in s] on strings: [q] is a prefix of some suffix of [s]. *)
Fixpoint str_in (q s : string) : bool :=
  String.prefix q s
  || match s with
     | EmptyString => false
     | String _ s' => str_in q s'
     end.

(** [s.split(sep)] for a separator of one character. *)
Fixpoint split (sep : ascii) (s : string) : list string :=
  match s with
  | EmptyString => [EmptyString]
  | String c s' =>
      if Ascii.eqb c sep then EmptyString :: split sep s'
      else match split sep s' with
           | p :: ps => String c p :: ps
           | [] => [String c EmptyString]
           end
  end.

(** ** JSON values and records *)

(** The scalars a field of a record holds. *)
Inductive value : Type :=
  | VNone
  | VBool (b : bool)
  | VNum (q : Q)
  | VStr (s : string).

(** Python's truth value. *)
Definition truthy (v : value) : bool :=
  match v with
  | VNone => false
  | VBool b => b
  | VNum q => negb (Z.eqb (Qnum q) 0)
  | VStr s => negb (String.eqb s "")
  end.

(** [v or w] *)
Definition py_or (v w : value) : value := if truthy v then v else w.

(** [needle in v]: a [TypeError] unless [v] is a string. *)
Definition py_in (needle : string) (v : value) : option bool :=
  match v with
  | VStr t => Some (str_in needle t)
  | _ => None
  end.

(** [v.split(':')]: an [AttributeError] unless [v] is a string. *)
Definition py_split (v : value) : option (list string) :=
  match v with
  | VStr t => Some (split ":" t)
  | _ => None
  end.

(** [v.lower()]: an [AttributeError] unless [v] is a string. *)
Definition py_lower (v : value) : option string :=
  match v with
  | VStr t => Some (lower t)
  | _ => None
  end.

(** A session record, a library entry, a lookup result and a search result
    are all Python dicts with string keys. *)
Abbreviation session := (gmap string value).

(** [d.get(k)] *)
Definition get (k : string) (d : session) : value := default VNone (d !! k).

(** [d.get(k, dflt)] *)
Definition get_or (k : string) (dflt : value) (d : session) : value :=
  default dflt (d !! k).

(** The parsed data file: the session list and the optional member list. *)
Record data : Type := Data {
  sessions : list session;
  members : option (list string)
}.

Definition with_sessions (d : data) (l : list session) : data :=
  {| sessions := l; members := members d |}.

(** ** Identifier scheme *)

Definition ROMAN : list string :=
  ["I"; "II"; "III"; "IV"; "V"; "VI"; "VII"; "VIII"; "IX"; "X"; "XI"; "XII"].

(** [l.index(x)] when [x in l] *)
Fixpoint index_of (x : string) (l : list string) : option nat :=
  match l with
  | [] => None
  | y :: l' => if String.eqb y x then Some O else S <$> index_of x l'
  end.

Definition roman_to_int (r : string) : Z :=
  match index_of r ROMAN with
  | Some i => (Z.of_nat i + 1)%Z
  | None => 0%Z
  end.

Definition int_to_roman (n : Z) : string :=
  if (Z.leb 1 n && Z.leb n (Z.of_nat (length ROMAN)))%Z
  then nth (Z.to_nat (n - 1)) ROMAN ""
  else pretty n.

(** ** Host names *)

Definition HOST_ALIASES_items : list (string * string) :=
  [ ("brass", "Braas");
    ("braas", "Braas");
    ("willie", "Joess");
    ("willie ", "Joess");
    ("fiddy ", "Fiddy");
    ("joess", "Joess") ].

Definition HOST_ALIASES : gmap string string := list_to_map HOST_ALIASES_items.

(** A falsy name is returned as it is; [strip] of a truthy value that is
    not a string is an [AttributeError]. *)
Definition normalise_host (name : value) : option value :=
  if negb (truthy name) then Some name
  else match name with
       | VStr s =>
           Some (VStr (default (strip s) (HOST_ALIASES !! lower (strip s))))
       | _ => None
       end.

(** ** Storage *)

(** [load_data]: every record gets its [host] key set to the normalised
    host. *)
Definition load_session (s : session) : option session :=
  h ← normalise_host (get "host" s); Some (<["host" := h]> s).

Definition load_data (stored : data) : option data :=
  l ← mapM load_session (sessions stored); Some (with_sessions stored l).

(** ** Allocation of the next id *)

(** The condition of the comprehension in [compute_next_id]:
    [s.get('id') and ':' in (s.get('id') or '')]. *)
Definition has_separator (s : session) : option bool :=
  if truthy (get "id" s) then py_in ":" (py_or (get "id" s) (VStr ""))
  else Some false.

(** [[s for s in sessions if cond(s)]] with a condition that can raise. *)
Fixpoint filter_sessions (cond : session → option bool) (l : list session)
  : option (list session) :=
  match l with
  | [] => Some []
  | s :: l' =>
      b ← cond s;
      r ← filter_sessions cond l';
      Some (if b : bool then s :: r else r)
  end.

Definition members_per_round : Z := 7.

Definition compute_next_id (sessions : list session) : option string :=
  valid ← filter_sessions has_separator sessions;
  match last valid with
  | None => Some "I:I"
  | Some s =>
      parts ← py_split (get "id" s);
      match parts with
      | [r; s] =>
          let ri := roman_to_int r in
          let si := roman_to_int s in
          if (Z.eqb ri 0 || Z.eqb si 0)%Z then Some "I:I"
          else if (Z.leb members_per_round si)%Z
               then Some (int_to_roman (ri + 1) +:+ ":I")
               else Some (r +:+ ":" +:+ int_to_roman (si + 1))
      | _ => Some "I:I"
      end
  end.

(** ** The registry: [add_session] and [update_session] *)

(** [sort_key] of [add_session]. *)
Definition sort_key (s : session) : option (Z * Z) :=
  let sid := py_or (get "id" s) (VStr "") in
  b ← py_in ":" sid;
  if b : bool then
    parts ← py_split sid;
    p0 ← parts !! 0%nat;
    p1 ← parts !! 1%nat;
    Some (roman_to_int p0, roman_to_int p1)
  else Some (999, 999)%Z.

(** Python's order on pairs of integers. *)
Definition key_le (a b : Z * Z) : bool :=
  (a.1 <? b.1)%Z || ((a.1 =? b.1)%Z && (a.2 <=? b.2)%Z).

(** [list.sort(key=...)] computes every key once and sorts stably: the
    sorted list is the one a stable insertion sort builds. *)
Fixpoint insert_by_key (x : (Z * Z) * session) (l : list ((Z * Z) * session))
  : list ((Z * Z) * session) :=
  match l with
  | [] => [x]
  | y :: l' => if key_le x.1 y.1 then x :: y :: l' else y :: insert_by_key x l'
  end.

Definition sort_by_key (l : list ((Z * Z) * session))
  : list ((Z * Z) * session) :=
  foldr insert_by_key [] l.

Definition keyed (s : session) : option ((Z * Z) * session) :=
  k ← sort_key s; Some (k, s).

Definition sort_sessions (l : list session) : option (list session) :=
  decorated ← mapM keyed l; Some ((sort_by_key decorated).*2).

(** [POST /api/sessions]: the data saved and the session of the response. *)
Definition add_session (stored : data) (request : session)
  : option (data * session) :=
  data ← load_data stored;
  h ← normalise_host (get "host" request);
  let session := <["host" := h]> request in
  session ← (if negb (truthy (get "id" session))
             then nid ← compute_next_id (sessions data);
                  Some (<["id" := VStr nid]> session)
             else Some session);
  sorted ← sort_sessions (sessions data ++ [session])%list;
  Some (with_sessions data sorted, session).

(** [v == t] for a string [t]. *)
Definition py_eq_str (v : value) (t : string) : bool :=
  match v with
  | VStr u => String.eqb u t
  | _ => false
  end.

(** The loop of [update_session]: the first record whose id equals
    [session_id] gets [s.update(updates)]; [None] when the loop ends
    without a match. *)
Fixpoint update_first (session_id : string) (updates : session)
    (l : list session) : option (list session * session) :=
  match l with
  | [] => None
  | s :: l' =>
      if py_eq_str (get "id" s) session_id
      then Some ((updates ∪ s) :: l', updates ∪ s)
      else '(l'', r) ← update_first session_id updates l'; Some (s :: l'', r)
  end.

Inductive update_response : Type :=
  | Updated (s : session)
  | NotFound.

(** [PUT /api/sessions/<session_id>]: the data in storage afterwards and the
    response.  Nothing is saved on the 404 path. *)
Definition update_session (stored : data) (session_id : string)
    (updates : session) : option (data * update_response) :=
  data ← load_data stored;
  match update_first session_id updates (sessions data) with
  | Some (l, s) => Some (with_sessions data l, Updated s)
  | None => Some (stored, NotFound)
  end.

(** The id of [GET /api/next-session]. *)
Definition next_session_id (stored : data) : option string :=
  data ← load_data stored; compute_next_id (sessions data).

(** ** Search *)

(** A [for] loop whose body can raise. *)
Fixpoint for_each {A B : Type} (body : A → B → option A) (acc : A)
    (l : list B) : option A :=
  match l with
  | [] => Some acc
  | x :: l' => acc' ← body acc x; for_each body acc' l'
  end.

Definition local_whisky (s : session) : value :=
  py_or (get "whisky" s) (VStr "").

Definition local_result (whisky : value) (s : session) : session :=
  <["whisky" := whisky]> (
  <["region" := get_or "region" (VStr "") s]> (
  <["rrp" := get "rrp" s]> (
  <["image_url" := get "image_url" s]> (
  <["source" := VStr "local"]> ∅)))).

Definition library_whisky (entry : session) : value :=
  get_or "whisky" (VStr "") entry.

Definition library_result (whisky : value) (entry : session) : session :=
  <["whisky" := whisky]> (
  <["region" := get_or "region" (VStr "") entry]> (
  <["type" := get_or "type" (VStr "") entry]> (
  <["rrp" := VNone]> (
  <["image_url" := VNone]> (
  <["source" := VStr "library"]> ∅))))).

(** The body shared by the two loops of [search_whisky]: the state is
    [(seen, results)]. *)
Definition search_pass (ql : string) (whisky_of : session → value)
    (result_of : value → session → session)
    (acc : gset string * list session) (s : session)
  : option (gset string * list session) :=
  let whisky := whisky_of s in
  wl ← py_lower whisky;
  if str_in ql wl && negb (bool_decide (wl ∈ acc.1))
  then Some ({[wl]} ∪ acc.1, (acc.2 ++ [result_of whisky s])%list)
  else Some acc.

(** [results] before [results[:10]]. *)
Definition search_matches (ql : string) (local library : list session)
  : option (list session) :=
  acc ← for_each (search_pass ql local_whisky local_result) (∅, []) local;
  acc ← for_each (search_pass ql library_whisky library_result) acc library;
  Some acc.2.

(** [GET /api/search-whisky?q=...]; [library] is what [load_library]
    returns. *)
Definition search_whisky (stored : data) (library : list session)
    (q_arg : string) : option (list session) :=
  let q := strip q_arg in
  if String.eqb q "" || Nat.ltb (String.length q) 2 then Some []
  else
    data ← load_data stored;
    results ← search_matches (lower q) (sessions data) library;
    Some (take 10 results).

(** ** Enrichment *)

(** Truth value of a dict. *)
Definition dict_truthy (d : session) : bool := negb (bool_decide (d = ∅)).

(** The three assignments under [if result:] in [enrich_all]. *)
Definition merge_result (s result : session) : session :=
  let s1 := if negb (truthy (get "image_url" s))
               && truthy (get "image_url" result)
            then <["image_url" := get "image_url" result]> s else s in
  let s2 := if negb (truthy (get "rrp" s1)) && truthy (get "price" result)
            then <["rrp" := get "price" result]> s1 else s1 in
  if truthy (get "dm_url" result)
  then <["dm_url" := get "dm_url" result]> s2 else s2.

Inductive status : Type := Enriched | Skipped | Failed.

(** The body of the loop of [enrich_all] on one record.  [lookup] is
    [lookup_dan_murphys], which raises a [TypeError] when building the URL
    from a query that is not a string. *)
Definition enrich_one (lookup : string → option session) (s : session)
  : option (session * status) :=
  if negb (truthy (get "whisky" s)) then Some (s, Skipped)
  else if truthy (get "image_url" s) && truthy (get "rrp" s)
          && truthy (get "dm_url" s)
  then Some (s, Skipped)
  else match get "whisky" s with
       | VStr w =>
           match lookup w with
           | Some result =>
               if dict_truthy result then Some (merge_result s result, Enriched)
               else Some (s, Failed)
           | None => Some (s, Failed)
           end
       | _ => None
       end.

Fixpoint enrich_loop (lookup : string → option session) (l : list session)
    (enriched failed : nat) : option (list session * nat * nat) :=
  match l with
  | [] => Some ([], enriched, failed)
  | s :: l' =>
      '(s', st) ← enrich_one lookup s;
      '(r, e, f) ← enrich_loop lookup l'
                     (match st with Enriched => S enriched | _ => enriched end)
                     (match st with Failed => S failed | _ => failed end);
      Some (s' :: r, e, f)
  end.

(** [POST /api/enrich-all]: the data saved and the two counts. *)
Definition enrich_all (stored : data) (lookup : string → option session)
  : option (data * nat * nat) :=
  data ← load_data stored;
  '(l, enriched, failed) ← enrich_loop lookup (sessions data) 0 0;
  Some (with_sessions data l, enriched, failed).

(** ** Listing and preview *)

(** [GET /api/data]: the sessions without whisky and without host are left
    out of the answer; nothing is saved. *)
Definition get_data (stored : data) : option data :=
  data ← load_data stored;
  Some (with_sessions data
          (filter (λ s, truthy (get "whisky" s) || truthy (get "host" s))
                  (sessions data))).

(** [sorted(...)] on strings: Python compares strings by code points. *)
Fixpoint insert_str (x : string) (l : list string) : list string :=
  match l with
  | [] => [x]
  | y :: l' => if String.leb x y then x :: y :: l' else y :: insert_str x l'
  end.

Definition sorted_strings (l : list string) : list string :=
  foldr insert_str [] l.

(** [sorted({normalise_host(s['host']) for s in sessions if s.get('host')})]:
    the set is built first, then sorted.  A truthy name normalises to a
    string or raises, so the last branch is never taken. *)
Definition session_hosts (l : list session) : option (list string) :=
  names ← mapM (λ s, h ← normalise_host (get "host" s);
                     match h with VStr t => Some t | _ => None end)
               (filter (λ s, truthy (get "host" s)) l);
  Some (sorted_strings (remove_dups names)).

(** [GET /api/next-session]: the id, the date and the hosts of the answer;
    [today] is [date.today().isoformat()]. *)
Definition next_session (stored : data) (today : string)
  : option (string * string * list string) :=
  data ← load_data stored;
  next_id ← compute_next_id (sessions data);
  hosts ← match members data with
           | Some (m :: ms) => Some (m :: ms)
           | _ => session_hosts (sessions data)
           end;
  Some (next_id, today, hosts).

(** ** The image search link *)

(** [urllib.parse.quote] with its default [safe='/'], which
    [requests.utils.quote] is: letters, digits and [_.-~] are never
    quoted. *)
Definition always_safe (c : ascii) : bool :=
  let n := nat_of_ascii c in
  (Nat.leb 48 n && Nat.leb n 57) || (Nat.leb 65 n && Nat.leb n 90)
  || (Nat.leb 97 n && Nat.leb n 122)
  || Nat.eqb n 95 || Nat.eqb n 46 || Nat.eqb n 45 || Nat.eqb n 126.

(** The upper-case hexadecimal digit of a number below 16. *)
Definition hex_digit (n : nat) : ascii :=
  ascii_of_nat (if Nat.ltb n 10 then 48 + n else 55 + n).

(** ['%{:02X}'.format(b)] *)
Definition percent_byte (b : nat) : string :=
  String "%" (String (hex_digit (b / 16)) (String (hex_digit (b mod 16)) "")).

(** The UTF-8 encoding of a code point below 256. *)
Definition utf8_bytes (c : ascii) : list nat :=
  let n := nat_of_ascii c in
  if Nat.ltb n 128 then [n] else [192 + n / 64; 128 + n mod 64].

Definition quote_char (c : ascii) : string :=
  if always_safe c || Ascii.eqb c "/" then String c ""
  else foldr (λ b acc, percent_byte b +:+ acc) "" (utf8_bytes c).

Fixpoint quote (s : string) : string :=
  match s with
  | EmptyString => ""
  | String c s' => quote_char c +:+ quote s'
  end.

(** [GET /api/image-search-url]: the [url] of the answer, [None] for the
    JSON [null]; [name] is the query parameter, [''] when absent. *)
Definition image_search_url (name : string) : option string :=
  let name := strip name in
  if String.eqb name "" then None
  else
    let query := quote (name +:+ " whisky bottle") in
    Some ("https://www.google.com/search?q=" +:+ query +:+ "&tbm=isch").

(** ** Notions used to state the properties *)

(** A value a string operation accepts without raising after the guards of
    the code: a string, or something falsy that the guard replaces. *)
Definition str_or_falsy (v : value) : bool :=
  match v with
  | VStr _ => true
  | _ => negb (truthy v)
  end.

(** The decoded [(round, ordinal)] pair of a rendered id; [None] unless the
    id has exactly two components that both decode to a non-zero value. *)
Definition decode_id (t : string) : option (Z * Z) :=
  match split ":" t with
  | [r; s] =>
      if (Z.eqb (roman_to_int r) 0 || Z.eqb (roman_to_int s) 0)%Z then None
      else Some (roman_to_int r, roman_to_int s)
  | _ => None
  end.

Definition decoded (s : session) : option (Z * Z) :=
  match get "id" s with
  | VStr t => decode_id t
  | _ => None
  end.

(** A record with a fully valid id. *)
Definition fully_valid (s : session) : bool :=
  match decoded s with Some _ => true | None => false end.

(** The rendering of a pair. *)
Definition render (p : Z * Z) : string :=
  int_to_roman p.1 +:+ ":" +:+ int_to_roman p.2.

(** The successor of a pair in a round of [round_size] members. *)
Definition successor (round_size : Z) (p : Z * Z) : Z * Z :=
  if (Z.leb round_size p.2)%Z then (p.1 + 1, 1)%Z else (p.1, p.2 + 1)%Z.

(** The allocation as section 4.1 of the specification words it, to be
    compared with [compute_next_id]: the last record, in the order of the
    input, whose id decodes to two non-zero components decides; without
    one the result is round 1, ordinal 1. *)
Definition allocate_next (round_size : Z) (records : list session) : Z * Z :=
  match last (omap decoded records) with
  | None => (1, 1)%Z
  | Some p => successor round_size p
  end.

(** The ids of the records with a fully valid id, in storage order. *)
Definition valid_ids (l : list session) : list string :=
  omap (λ s, match get "id" s with
             | VStr t =>
                 match decode_id t with Some _ => Some t | None => None end
             | _ => None
             end) l.

(** Ascending order of two records by their sort key. *)
Definition session_le (a b : session) : Prop :=
  match sort_key a, sort_key b with
  | Some ka, Some kb => key_le ka kb
  | _, _ => False
  end.

(** The lower-cased whisky name of a search result. *)
Definition result_name (r : session) : option string :=
  py_lower (get "whisky" r).

(** A record the loop of [enrich_all] does not skip. *)
Definition eligible (s : session) : bool :=
  truthy (get "whisky" s)
  && negb (truthy (get "image_url" s) && truthy (get "rrp" s)
           && truthy (get "dm_url" s)).

(** A record holding only an id. *)
Definition with_id (id : string) : session := {[ "id" := VStr id ]}.

(** A record posted with only an id, as an add stores it. *)
Definition stored_id (id : string) : session :=
  <["host" := VNone]> (with_id id).

(** A record or library entry holding only a whisky name. *)
Definition with_whisky (w : string) : session := {[ "whisky" := VStr w ]}.

(** A record with an image and a product link, without price. *)
Definition sample_record : session :=
  <["image_url" := VStr "X"]>
    (<["dm_url" := VStr "old"]> (with_whisky "Oban 14")).

(** What the lookup finds for it. *)
Definition sample_result : session :=
  <["image_url" := VStr "Y"]>
    (<["price" := VNum (8999 # 100)]> {[ "dm_url" := VStr "new" ]}).

Definition sample_lookup (q : string) : option session :=
  if String.eqb q "Oban 14" then Some sample_result else None.

(** Eleven sessions with distinct whisky names, and a library that holds
    the last of them in upper case. *)
Definition cask_history : data :=
  Data (with_whisky <$> ["Cask 01"; "Cask 02"; "Cask 03"; "Cask 04";
                         "Cask 05"; "Cask 06"; "Cask 07"; "Cask 08";
                         "Cask 09"; "Cask 10"; "Cask 11"]) None.

Definition cask_library : list session := [with_whisky "CASK 11"].

(** A decimal rendering starts with a digit or a minus sign. *)
Definition starts_decimal (s : string) : bool :=
  match s with
  | String c _ =>
      let n := nat_of_ascii c in
      (Nat.leb 48 n && Nat.leb n 57) || Nat.eqb n 45
  | EmptyString => false
  end.

(** The last character of the string is white space. *)
Fixpoint ends_with_space (s : string) : bool :=
  match s with
  | EmptyString => false
  | String c EmptyString => isspace c
  | String _ s' => ends_with_space s'
  end.

(** Every character of the string satisfies [p]. *)
Fixpoint all_chars (p : ascii → bool) (s : string) : bool :=
  match s with
  | EmptyString => true
  | String c s' => p c && all_chars p s'
  end.

(** A character a quoted string is made of. *)
Definition quoted_char (c : ascii) : bool :=
  always_safe c || Ascii.eqb c "/" || Ascii.eqb c "%".

Definition hex_value (c : ascii) : nat :=
  let n := nat_of_ascii c in if Nat.leb n 57 then n - 48 else n - 55.

(** The inverse of [quote], on the strings [quote] produces. *)
Fixpoint unquote (s : string) : string :=
  match s with
  | EmptyString => ""
  | String c s1 =>
      if Ascii.eqb c "%" then
        match s1 with
        | String h1 (String h2 s2) =>
            let b := 16 * hex_value h1 + hex_value h2 in
            if Nat.ltb b 128 then String (ascii_of_nat b) (unquote s2)
            else
              match s2 with
              | String _ (String h3 (String h4 s3)) =>
                  String (ascii_of_nat
                            ((b - 192) * 64
                             + (16 * hex_value h3 + hex_value h4 - 128)))
                         (unquote s3)
              | _ => ""
              end
        | _ => ""
        end
      else String c (unquote s1)
  end.

(** A record the listing keeps: a non-empty whisky, or a host that is a
    string with a character that is not white space. *)
Definition listed (s : session) : bool :=
  truthy (get "whisky" s)
  || match get "host" s with
     | VStr h => negb (String.eqb (strip h) "")
     | _ => false
     end.

(** * Properties *)

(** ** Strings *)

Lemma rstrip_idem (s : string) : rstrip (rstrip s) = rstrip s.
Proof.
  induction s as [|c s IH]; [done|].
  simpl. destruct (rstrip s) as [|d t] eqn:E.
  - destruct (isspace c) eqn:Hc; [done|]. simpl. by rewrite Hc.
  - change (rstrip (String c (String d t)))
      with (match rstrip (String d t) with
            | EmptyString =>
                if isspace c then EmptyString else String c EmptyString
            | u => String c u
            end).
    by rewrite IH.
Qed.

Lemma lstrip_head (s : string) :
  lstrip s = "" ∨ ∃ c t, lstrip s = String c t ∧ isspace c = false.
Proof.
  induction s as [|c s IH]; [by left|].
  simpl. destruct (isspace c) eqn:Hc; [done|]. right. by exists c, s.
Qed.

Lemma rstrip_head (c : ascii) (t : string) :
  isspace c = false → ∃ t', rstrip (String c t) = String c t'.
Proof.
  intros Hc. simpl. destruct (rstrip t) as [|d u].
  - rewrite Hc. by eexists.
  - by eexists.
Qed.

Lemma strip_idem (s : string) : strip (strip s) = strip s.
Proof.
  unfold strip. destruct (lstrip_head s) as [->|(c & t & -> & Hc)]; [done|].
  destruct (rstrip_head c t Hc) as [t' Ht']. rewrite Ht'.
  cbn [lstrip]. rewrite Hc, <- Ht'. apply rstrip_idem.
Qed.

(** ** Host names *)

Lemma HOST_ALIASES_canonical (k v : string) :
  HOST_ALIASES !! k = Some v →
  normalise_host (VStr v) = Some (VStr v).
Proof.
  intros H. apply elem_of_list_to_map_2 in H.
  unfold HOST_ALIASES_items in H.
  repeat (apply elem_of_cons in H as [[= -> ->]|H]; [by vm_compute|]).
  by apply elem_of_nil in H.
Qed.

Lemma normalise_host_fixed (v w : value) :
  normalise_host v = Some w → normalise_host w = Some w.
Proof.
  intros H. unfold normalise_host in H.
  destruct (truthy v) eqn:Hv; simpl in H.
  - destruct v as [| | |s]; try done. injection H as <-.
    destruct (HOST_ALIASES !! lower (strip s)) as [c|] eqn:Hc; simpl.
    + by apply (HOST_ALIASES_canonical _ _ Hc).
    + unfold normalise_host.
      destruct (truthy (VStr (strip s))); simpl; [|done].
      by rewrite strip_idem, Hc.
  - injection H as <-. unfold normalise_host. by rewrite Hv.
Qed.

Lemma normalise_host_str (s : string) :
  ∃ t, normalise_host (VStr s) = Some (VStr t).
Proof.
  unfold normalise_host. destruct (truthy (VStr s)); simpl; by eexists.
Qed.

(** C5: normalising twice is normalising once, for every value (when the
    first call raises, so does the composition); a string or null is
    always normalised without an exception, to a string or null. *)
Theorem normalise_host_idempotent :
  (∀ v, normalise_host v ≫= normalise_host = normalise_host v)
  ∧ (∀ s, ∃ t, normalise_host (VStr s) = Some (VStr t)
             ∧ normalise_host (VStr t) = Some (VStr t))
  ∧ normalise_host VNone = Some VNone.
Proof.
  split; [|split; [|done]].
  - intros v. destruct (normalise_host v) as [w|] eqn:E; [|done].
    simpl. by apply normalise_host_fixed in E.
  - intros s. destruct (normalise_host_str s) as [t Ht].
    exists t. split; [done|]. by apply normalise_host_fixed in Ht.
Qed.

(** ** Identifier scheme *)

Lemma split_nonempty (sep : ascii) (t : string) : split sep t ≠ [].
Proof.
  destruct t as [|c t]; simpl; [done|].
  destruct (Ascii.eqb c sep); [done|]. by destruct (split sep t).
Qed.

(** [':' in t] exactly when [t.split(':')] has at least two parts. *)
Lemma str_in_colon_split (t : string) :
  str_in ":" t = negb (Nat.eqb (length (split ":" t)) 1).
Proof.
  induction t as [|c t IH]; [done|].
  cbn [str_in split String.prefix].
  destruct (Ascii.eqb_spec c ":") as [->|Hc].
  - simpl. assert (String.prefix "" t = true) as -> by by destruct t.
    pose proof (split_nonempty ":" t). by destruct (split ":" t).
  - destruct (ascii_dec ":" c) as [<-|_]; [done|].
    simpl. rewrite IH. pose proof (split_nonempty ":" t).
    by destruct (split ":" t).
Qed.

Lemma roman_to_int_range (r : string) : (0 ≤ roman_to_int r ≤ 12)%Z.
Proof.
  unfold roman_to_int, ROMAN. cbn [index_of].
  repeat (destruct (String.eqb _ r); [simpl; lia|]).
  simpl; lia.
Qed.

Lemma int_to_roman_to_int (r : string) :
  roman_to_int r ≠ 0%Z → int_to_roman (roman_to_int r) = r.
Proof.
  unfold roman_to_int, ROMAN. cbn [index_of].
  repeat match goal with
         | |- context [String.eqb ?a r] =>
             destruct (String.eqb_spec a r) as [<-|_]; [by vm_compute|]
         end.
  intros H. exfalso. apply H. reflexivity.
Qed.

Lemma decode_id_range (t : string) (p : Z * Z) :
  decode_id t = Some p → (1 ≤ p.1 ≤ 12)%Z ∧ (1 ≤ p.2 ≤ 12)%Z.
Proof.
  unfold decode_id.
  destruct (split ":" t) as [|r [|s [|]]]; try done.
  pose proof (roman_to_int_range r). pose proof (roman_to_int_range s).
  destruct (Z.eqb_spec (roman_to_int r) 0), (Z.eqb_spec (roman_to_int s) 0);
    simpl; try done.
  intros [= <-]. simpl. lia.
Qed.

Lemma decode_id_separator (t : string) (p : Z * Z) :
  decode_id t = Some p → str_in ":" t = true ∧ t ≠ "".
Proof.
  unfold decode_id. intros H. rewrite str_in_colon_split.
  split; [|by intros ->].
  by destruct (split ":" t) as [|r [|s [|]]].
Qed.

Lemma decode_render (r s : Z) :
  (1 ≤ r ≤ 12)%Z → (1 ≤ s ≤ 12)%Z → decode_id (render (r, s)) = Some (r, s).
Proof.
  intros Hr Hs.
  assert (r = 1 ∨ r = 2 ∨ r = 3 ∨ r = 4 ∨ r = 5 ∨ r = 6 ∨ r = 7 ∨ r = 8
          ∨ r = 9 ∨ r = 10 ∨ r = 11 ∨ r = 12)%Z as Hr' by lia.
  assert (s = 1 ∨ s = 2 ∨ s = 3 ∨ s = 4 ∨ s = 5 ∨ s = 6 ∨ s = 7 ∨ s = 8
          ∨ s = 9 ∨ s = 10 ∨ s = 11 ∨ s = 12)%Z as Hs' by lia.
  clear Hr Hs. destruct_or! Hr'; destruct_or! Hs'; subst; by vm_compute.
Qed.

(** A record passes the filter of [compute_next_id] exactly when its id is
    a non-empty string that contains the separator. *)
Lemma has_separator_true (s : session) :
  has_separator s = Some true ↔
  ∃ t, get "id" s = VStr t ∧ t ≠ "" ∧ str_in ":" t = true.
Proof.
  unfold has_separator, py_or. split.
  - destruct (truthy (get "id" s)) eqn:Ht; [|done].
    destruct (get "id" s) as [| | |t]; try done.
    simpl in *. intros [= H]. exists t. split; [done|]. split; [|done].
    intros ->. done.
  - intros (t & -> & Hne & Hin). simpl.
    destruct (String.eqb_spec t ""); [done|]. simpl. by rewrite Hin.
Qed.

Lemma has_separator_total (s : session) :
  str_or_falsy (get "id" s) → is_Some (has_separator s).
Proof.
  unfold has_separator, py_or, str_or_falsy.
  destruct (get "id" s) as [| | |t]; simpl; try done.
  - destruct b; by eauto.
  - destruct (Qnum q =? 0)%Z; by eauto.
  - destruct (negb (t =? "")); by eauto.
Qed.

Lemma fully_valid_has_separator (s : session) :
  fully_valid s = true → has_separator s = Some true.
Proof.
  unfold fully_valid, decoded. intros H. apply has_separator_true.
  destruct (get "id" s) as [| | |t]; try done.
  destruct (decode_id t) as [p|] eqn:E; [|done].
  apply decode_id_separator in E as [??]. by exists t.
Qed.

Lemma filter_sessions_app (c : session → option bool) (l l' : list session) :
  filter_sessions c (l ++ l') =
  r ← filter_sessions c l; r' ← filter_sessions c l'; Some (r ++ r')%list.
Proof.
  induction l as [|s l IH]; simpl.
  - by destruct (filter_sessions c l').
  - destruct (c s) as [b|]; simpl; [|done]. rewrite IH.
    destruct (filter_sessions c l) as [r|]; simpl; [|done].
    destruct (filter_sessions c l') as [r'|]; simpl; [|done].
    by destruct b.
Qed.

Lemma filter_sessions_total (l : list session) :
  Forall (λ x, str_or_falsy (get "id" x)) l →
  is_Some (filter_sessions has_separator l).
Proof.
  induction 1 as [|s l Hs _ IH]; simpl; [by eauto|].
  destruct (has_separator_total s Hs) as [b ->]. destruct IH as [r ->].
  simpl. by eauto.
Qed.

Lemma filter_sessions_none (l : list session) :
  Forall (λ x, has_separator x = Some false) l →
  filter_sessions has_separator l = Some [].
Proof.
  induction 1 as [|s l Hs _ IH]; simpl; [done|]. by rewrite Hs, IH.
Qed.

Lemma filter_sessions_elem (c : session → option bool) (l r : list session) :
  filter_sessions c l = Some r → ∀ s, s ∈ r → s ∈ l ∧ c s = Some true.
Proof.
  revert r. induction l as [|x l IH]; simpl; intros r H s Hs.
  - injection H as <-. by apply elem_of_nil in Hs.
  - destruct (c x) as [b|] eqn:Hx; simpl in H; [|done].
    destruct (filter_sessions c l) as [r'|]; simpl in H; [|done].
    injection H as <-. destruct b.
    + apply elem_of_cons in Hs as [->|Hs].
      * split; [by left|done].
      * destruct (IH _ eq_refl s Hs). split; [by right|done].
    + destruct (IH _ eq_refl s Hs). split; [by right|done].
Qed.

(** The result is decided by the id of the last record that passes the
    filter. *)
Lemma compute_next_id_last (l valid : list session) (s : session) (t : string) :
  filter_sessions has_separator l = Some valid →
  last valid = Some s →
  get "id" s = VStr t →
  compute_next_id l =
  Some (match decode_id t with
        | Some p => render (successor members_per_round p)
        | None => "I:I"
        end).
Proof.
  intros Hf Hl Ht. unfold compute_next_id. rewrite Hf. simpl.
  rewrite Hl, Ht. simpl. unfold decode_id.
  destruct (split ":" t) as [|r [|si [|]]]; try done.
  destruct (Z.eqb_spec (roman_to_int r) 0) as [|Hr]; [done|].
  destruct (Z.eqb_spec (roman_to_int si) 0) as [|Hs]; [done|].
  simpl. unfold successor, render. simpl.
  destruct (Z.leb members_per_round (roman_to_int si)); simpl.
  - done.
  - by rewrite (int_to_roman_to_int r Hr).
Qed.

Lemma compute_next_id_no_separator (l : list session) :
  Forall (λ x, has_separator x = Some false) l →
  compute_next_id l = Some "I:I".
Proof.
  intros H. unfold compute_next_id. by rewrite (filter_sessions_none l H).
Qed.

Lemma compute_next_id_decided (l l' : list session) (s : session) :
  Forall (λ x, str_or_falsy (get "id" x)) l →
  has_separator s = Some true →
  Forall (λ x, has_separator x = Some false) l' →
  compute_next_id (l ++ s :: l') =
  Some (match decoded s with
        | Some p => render (successor members_per_round p)
        | None => "I:I"
        end).
Proof.
  intros Hl Hs Hl'.
  destruct (filter_sessions_total l Hl) as [r Hr].
  pose proof Hs as Hs'. apply has_separator_true in Hs' as (t & Ht & _ & _).
  unfold decoded. rewrite Ht.
  apply (compute_next_id_last _ (r ++ [s]) s t); [|by rewrite last_snoc|done].
  rewrite filter_sessions_app, Hr. simpl.
  by rewrite Hs, (filter_sessions_none l' Hl').
Qed.

Lemma compute_next_id_all_invalid (l : list session) :
  Forall (λ x, str_or_falsy (get "id" x)) l →
  Forall (λ x, fully_valid x = false) l →
  compute_next_id l = Some "I:I".
Proof.
  intros Hl Hinv. destruct (filter_sessions_total l Hl) as [valid Hv].
  destruct (last valid) as [s|] eqn:Hlast.
  - assert (s ∈ valid) as Hin.
    { apply last_Some in Hlast as [l0 ->]. apply elem_of_app; right; by left. }
    destruct (filter_sessions_elem _ _ _ Hv s Hin) as [Hsl Hs].
    apply has_separator_true in Hs as (t & Ht & _ & _).
    rewrite (compute_next_id_last _ _ _ _ Hv Hlast Ht).
    rewrite Forall_forall in Hinv. specialize (Hinv s Hsl).
    unfold fully_valid, decoded in Hinv. rewrite Ht in Hinv.
    by destruct (decode_id t).
  - unfold compute_next_id. rewrite Hv. simpl. by rewrite Hlast.
Qed.

Lemma compute_next_id_skips (l l' : list session) :
  Forall (λ x, has_separator x = Some false) l' →
  compute_next_id (l ++ l') = compute_next_id l.
Proof.
  intros Hl'. unfold compute_next_id.
  rewrite filter_sessions_app, (filter_sessions_none l' Hl').
  destruct (filter_sessions has_separator l) as [r|]; simpl; [|done].
  by rewrite app_nil_r.
Qed.

(** C1, as amended: the record that decides is the last one whose id is a
    non-empty string containing the separator.  Records after it whose id
    is missing, empty or without separator are skipped; when the id of the
    deciding record does not decode to two non-zero components the result
    is "I:I", whatever the records before it hold; a registry without any
    separator-bearing id gives "I:I". *)
Theorem compute_next_id_last_separator (l l' : list session) :
  Forall (λ x, str_or_falsy (get "id" x)) l →
  Forall (λ x, has_separator x = Some false) l' →
  (∀ s, has_separator s = Some true →
        compute_next_id (l ++ s :: l') =
        Some (match decoded s with
              | Some p => render (successor members_per_round p)
              | None => "I:I"
              end))
  ∧ compute_next_id (l ++ l') = compute_next_id l
  ∧ compute_next_id l' = Some "I:I".
Proof.
  intros Hl Hl'. split; [|split].
  - intros s Hs. by apply compute_next_id_decided.
  - by apply compute_next_id_skips.
  - by apply compute_next_id_no_separator.
Qed.

Lemma compute_next_id_last_separator_witness :
  compute_next_id ([with_id "II:III"] ++ with_id "X:foo" :: [with_id "foo"])
  = Some "I:I"
  ∧ compute_next_id ([with_id "II:III"] ++ [with_id "foo"])
    = compute_next_id [with_id "II:III"].
Proof.
  assert (Forall (λ x, str_or_falsy (get "id" x)) [with_id "II:III"]) as H1
    by (repeat constructor).
  assert (Forall (λ x, has_separator x = Some false) [with_id "foo"]) as H2
    by (repeat constructor).
  destruct (compute_next_id_last_separator _ _ H1 H2) as (Ha & Hb & _).
  split; [|exact Hb]. exact (Ha (with_id "X:foo") eq_refl).
Defined.

(** C1, as stated, fails: the last record with a fully valid id is "I:II",
    so the claimed result is "I:III", but the malformed "X:foo" after it
    contains the separator, is not skipped, and turns the result into
    "I:I". *)
Lemma compute_next_id_skips_counterexample :
  fully_valid (with_id "I:II") = true
  ∧ fully_valid (with_id "X:foo") = false
  ∧ render (allocate_next members_per_round
              [with_id "I:II"; with_id "X:foo"]) = "I:III"
  ∧ compute_next_id [with_id "I:II"] = Some "I:III"
  ∧ compute_next_id [with_id "I:II"; with_id "X:foo"] = Some "I:I"
  ∧ compute_next_id [with_id "I:II"; with_id "X:foo"]
    ≠ Some (render (allocate_next members_per_round
                      [with_id "I:II"; with_id "X:foo"])).
Proof. by vm_compute. Qed.

(** C7, as amended: when the last record whose id contains the separator
    has the rendering of a valid pair [(r, s)] as its id, the next id is
    the rendering of [(r, s + 1)] for [s < 7] and of [(r + 1, 1)]
    otherwise; a registry that is empty or holds no fully valid id gives
    "I:I", the rendering of [(1, 1)]; the round size is 7. *)
Theorem compute_next_id_successor (r s : Z) (l l' : list session)
    (x : session) :
  (1 ≤ r ≤ 12)%Z → (1 ≤ s ≤ 12)%Z →
  Forall (λ y, str_or_falsy (get "id" y)) l →
  get "id" x = VStr (render (r, s)) →
  Forall (λ y, has_separator y = Some false) l' →
  compute_next_id (l ++ x :: l') =
    Some (render (if (s <? members_per_round)%Z
                  then (r, s + 1)%Z else (r + 1, 1)%Z))
  ∧ (∀ l0, Forall (λ y, str_or_falsy (get "id" y)) l0 →
           Forall (λ y, fully_valid y = false) l0 →
           compute_next_id l0 = Some "I:I")
  ∧ compute_next_id [] = Some "I:I"
  ∧ render (1, 1)%Z = "I:I"
  ∧ members_per_round = 7%Z.
Proof.
  intros Hr Hs Hl Hx Hl'. split; [|split; [|done]].
  - assert (decoded x = Some (r, s)) as Hd.
    { unfold decoded. rewrite Hx. by apply decode_render. }
    assert (has_separator x = Some true) as Hsep.
    { apply fully_valid_has_separator. unfold fully_valid. by rewrite Hd. }
    rewrite (compute_next_id_decided l l' x Hl Hsep Hl'), Hd.
    unfold successor. simpl.
    by destruct (Z.ltb_spec s members_per_round),
                (Z.leb_spec members_per_round s); try lia.
  - apply compute_next_id_all_invalid.
Qed.

Lemma compute_next_id_successor_witness :
  compute_next_id ([with_id "I:I"] ++ with_id "III:VII" :: [with_id "draft"])
  = Some "IV:I".
Proof.
  refine (proj1 (compute_next_id_successor 3 7 [with_id "I:I"]
                   [with_id "draft"] (with_id "III:VII") _ _ _ _ _)).
  - lia.
  - lia.
  - repeat constructor.
  - reflexivity.
  - repeat constructor.
Defined.

(** C7, as stated, fails: the last valid id of the registry is
    [(3, 7)], so the claimed result is "IV:I", but the later id "IV:",
    which has the separator and an empty ordinal, makes the code answer
    "I:I". *)
Lemma compute_next_id_successor_counterexample :
  last (omap decoded [with_id "III:VII"; with_id "IV:"]) = Some (3, 7)%Z
  ∧ render (successor members_per_round (3, 7)%Z) = "IV:I"
  ∧ compute_next_id [with_id "III:VII"; with_id "IV:"] = Some "I:I"
  ∧ compute_next_id [with_id "III:VII"; with_id "IV:"]
    ≠ Some (render (successor members_per_round (3, 7)%Z)).
Proof. by vm_compute. Qed.

(** ** Loading *)

Lemma get_insert_ne (k k' : string) (v : value) (s : session) :
  k' ≠ k → get k (<[k' := v]> s) = get k s.
Proof. intros H. unfold get. by rewrite lookup_insert_ne. Qed.

Lemma get_insert_eq (k : string) (v : value) (s : session) :
  get k (<[k := v]> s) = v.
Proof. unfold get. by rewrite lookup_insert_eq. Qed.

Lemma load_session_get (s s' : session) (k : string) :
  load_session s = Some s' → k ≠ "host" → get k s' = get k s.
Proof.
  unfold load_session. destruct (normalise_host (get "host" s)); [|done].
  intros [= <-] Hk. by apply get_insert_ne.
Qed.

Lemma load_data_sessions (stored loaded : data) :
  load_data stored = Some loaded →
  Forall2 (λ s s', load_session s = Some s') (sessions stored) (sessions loaded)
  ∧ members loaded = members stored.
Proof.
  unfold load_data.
  destruct (mapM load_session (sessions stored)) as [l|] eqn:E; [|done].
  intros [= <-]. split; [|done]. by apply mapM_Some.
Qed.

(** Loading leaves every id as it is stored. *)
Lemma load_data_ids (stored loaded : data) :
  load_data stored = Some loaded →
  (get "id" <$> sessions loaded) = (get "id" <$> sessions stored).
Proof.
  intros H. apply load_data_sessions in H as [H _].
  induction H as [|s s' l l' Hs _ IH]; [done|].
  simpl. f_equal; [|done]. by apply (load_session_get s s').
Qed.

(** ** Update *)

Lemma py_eq_str_true (v : value) (t : string) :
  py_eq_str v t = true ↔ v = VStr t.
Proof.
  destruct v as [| | |u]; simpl; try done.
  destruct (String.eqb_spec u t); naive_solver.
Qed.

Lemma update_first_None (sid : string) (upd : session) (l : list session) :
  update_first sid upd l = None ↔ ∀ s, s ∈ l → get "id" s ≠ VStr sid.
Proof.
  induction l as [|x l IH]; simpl.
  - split; [|done]. intros _ s Hs. by apply elem_of_nil in Hs.
  - destruct (py_eq_str (get "id" x) sid) eqn:E.
    + apply py_eq_str_true in E. split; [done|].
      intros H. by destruct (H x (list_elem_of_here _ _)).
    + destruct (update_first sid upd l) as [[l'' r]|]; simpl.
      * split; [done|]. intros H. exfalso.
        assert (∀ s, s ∈ l → get "id" s ≠ VStr sid) as H'
          by (intros s Hs; apply H; by right).
        by apply IH in H'.
      * split; [|done]. intros _ s Hs.
        apply elem_of_cons in Hs as [->|Hs].
        -- intros Heq. apply py_eq_str_true in Heq. congruence.
        -- destruct IH as [IH _]. by apply IH.
Qed.

Lemma update_first_Some (sid : string) (upd : session) (l : list session)
    (i : nat) (s : session) :
  l !! i = Some s →
  get "id" s = VStr sid →
  (∀ j x, j < i → l !! j = Some x → get "id" x ≠ VStr sid) →
  update_first sid upd l = Some (<[i := upd ∪ s]> l, upd ∪ s).
Proof.
  revert i. induction l as [|x l IH]; intros i Hi Hs Hbefore; [done|].
  destruct i as [|i]; simpl in *.
  - injection Hi as ->. apply py_eq_str_true in Hs. by rewrite Hs.
  - destruct (py_eq_str (get "id" x) sid) eqn:E.
    + apply py_eq_str_true in E. by destruct (Hbefore 0 x ltac:(lia) eq_refl).
    + rewrite (IH i Hi Hs); [done|].
      intros j y Hj Hy. apply (Hbefore (S j) y); [lia|done].
Qed.

(** C8: the update answers NotFound, with the storage as it was, exactly
    when the data loads and no stored record has an id that is the very
    string [session_id]; whenever the answer is NotFound the storage is
    unchanged. *)
Theorem update_session_not_found (stored : data) (session_id : string)
    (updates : session) :
  (update_session stored session_id updates = Some (stored, NotFound)
   ↔ is_Some (load_data stored)
     ∧ ∀ s, s ∈ sessions stored → get "id" s ≠ VStr session_id)
  ∧ (∀ d', update_session stored session_id updates = Some (d', NotFound) →
           d' = stored).
Proof.
  unfold update_session.
  destruct (load_data stored) as [loaded|] eqn:Hload; simpl.
  - assert ((∀ s, s ∈ sessions loaded → get "id" s ≠ VStr session_id)
            ↔ (∀ s, s ∈ sessions stored → get "id" s ≠ VStr session_id))
      as Hids.
    { pose proof (load_data_ids _ _ Hload) as E.
      split; intros H s Hs Heq.
      - assert (get "id" s ∈ get "id" <$> sessions stored) as Hin
          by (apply list_elem_of_fmap; eauto).
        rewrite <- E in Hin. apply list_elem_of_fmap in Hin as (s' & Hs' & Hin).
        apply (H s' Hin). congruence.
      - assert (get "id" s ∈ get "id" <$> sessions loaded) as Hin
          by (apply list_elem_of_fmap; eauto).
        rewrite E in Hin. apply list_elem_of_fmap in Hin as (s' & Hs' & Hin).
        apply (H s' Hin). congruence. }
    destruct (update_first session_id updates (sessions loaded))
      as [[l r]|] eqn:Hu.
    + split; [|done]. split; [done|]. intros [_ H].
      destruct Hids as [_ Hids]. specialize (Hids H).
      apply (update_first_None session_id updates) in Hids. congruence.
    + split; [|by intros d' [= <-]]. split; [|done].
      intros _. split; [by eauto|].
      destruct Hids as [Hids _]. apply Hids.
      by apply (update_first_None session_id updates).
  - split; [|done]. split; [done|]. by intros [[? [=]] _].
Qed.

(** The comparison is on the rendered string: "I:I:x" has the sort key of
    "I:I", and "I:I" does not find it. *)
Example update_session_string_match :
  sort_key (with_id "I:I:x") = sort_key (with_id "I:I")
  ∧ update_session (Data [with_id "I:I:x"] None) "I:I"
      (with_whisky "Oban 14")
    = Some (Data [with_id "I:I:x"] None, NotFound).
Proof. by vm_compute. Qed.

(** C10, as amended: the patch goes to the first record, in storage order,
    whose id is [session_id], and to no other.  Every other record, later
    records with the same id included, is saved as [load_data] returns
    it: its host replaced by the normalised host ([null] when the record
    had none) and every other field as stored; a record stored with a
    normalised host is saved exactly as stored. *)
Theorem update_session_first_only (stored : data) (session_id : string)
    (updates : session) (i : nat) (st : session) :
  is_Some (load_data stored) →
  sessions stored !! i = Some st →
  get "id" st = VStr session_id →
  (∀ j y, j < i → sessions stored !! j = Some y →
          get "id" y ≠ VStr session_id) →
  ∃ d' h,
    normalise_host (get "host" st) = Some h
    ∧ update_session stored session_id updates
      = Some (d', Updated (updates ∪ <["host" := h]> st))
    ∧ sessions d' !! i = Some (updates ∪ <["host" := h]> st)
    ∧ length (sessions d') = length (sessions stored)
    ∧ members d' = members stored
    ∧ (∀ j y, j ≠ i → sessions stored !! j = Some y →
              ∃ hy, normalise_host (get "host" y) = Some hy
                    ∧ sessions d' !! j = Some (<["host" := hy]> y))
    ∧ (∀ j y, j ≠ i → sessions stored !! j = Some y →
              load_session y = Some y → sessions d' !! j = Some y).
Proof.
  intros [loaded Hload] Hi Hs Hbefore.
  pose proof (load_data_sessions _ _ Hload) as [HF Hm].
  destruct (Forall2_lookup_l _ _ _ _ _ HF Hi) as (s & Hi' & Hls).
  unfold load_session in Hls.
  destruct (normalise_host (get "host" st)) as [h|] eqn:Hh; [|done].
  simpl in Hls. injection Hls as <-.
  assert (get "id" (<["host" := h]> st) = VStr session_id) as Hs'
    by by rewrite get_insert_ne.
  assert (∀ j x, j < i → sessions loaded !! j = Some x →
                 get "id" x ≠ VStr session_id) as Hbefore'.
  { intros j x Hj Hx.
    destruct (Forall2_lookup_r _ _ _ _ _ HF Hx) as (y & Hy & Hly).
    rewrite (load_session_get y x "id" Hly) by done. by apply (Hbefore j y). }
  exists (with_sessions loaded
            (<[i := updates ∪ <["host" := h]> st]> (sessions loaded))), h.
  split; [done|]. unfold update_session. rewrite Hload. simpl.
  rewrite (update_first_Some _ updates _ i _ Hi' Hs' Hbefore'). simpl.
  split; [done|]. split; [|split; [|split; [done|split]]].
  - apply list_lookup_insert_eq. by apply lookup_lt_Some in Hi'.
  - rewrite length_insert. symmetry. by apply Forall2_length in HF.
  - intros j y Hj Hy.
    destruct (Forall2_lookup_l _ _ _ _ _ HF Hy) as (y' & Hy' & Hly).
    unfold load_session in Hly.
    destruct (normalise_host (get "host" y)) as [hy|]; [|done].
    simpl in Hly. injection Hly as <-. exists hy. split; [done|].
    by rewrite list_lookup_insert_ne.
  - intros j y Hj Hy Hfix. rewrite list_lookup_insert_ne by done.
    destruct (Forall2_lookup_l _ _ _ _ _ HF Hy) as (y' & Hy' & Hly).
    rewrite Hy'. congruence.
Qed.

Lemma update_session_first_only_witness :
  ∃ d' h,
    normalise_host (VStr "Braas") = Some h
    ∧ update_session
        (Data [stored_id "I:I";
               <["host" := VStr "Braas"]> (with_id "I:II");
               <["host" := VStr " brass"]> (with_id "I:II")] None)
        "I:II" (with_whisky "Oban 14")
      = Some (d', Updated (with_whisky "Oban 14"
                           ∪ <["host" := h]>
                               (<["host" := VStr "Braas"]> (with_id "I:II"))))
    ∧ sessions d' !! 2%nat
      = Some (<["host" := VStr "Braas"]>
                (<["host" := VStr " brass"]> (with_id "I:II"))).
Proof.
  destruct (update_session_first_only
              (Data [stored_id "I:I";
                     <["host" := VStr "Braas"]> (with_id "I:II");
                     <["host" := VStr " brass"]> (with_id "I:II")] None)
              "I:II" (with_whisky "Oban 14") 1
              (<["host" := VStr "Braas"]> (with_id "I:II")))
    as (d' & h & Hh & Hu & _ & _ & _ & Hother & _).
  - exists (Data [stored_id "I:I";
                  <["host" := VStr "Braas"]> (with_id "I:II");
                  <["host" := VStr "Braas"]> (with_id "I:II")] None).
    vm_compute; reflexivity.
  - reflexivity.
  - vm_compute; reflexivity.
  - intros j y Hj Hy. assert (j = 0)%nat as -> by lia.
    injection Hy as <-. vm_compute. discriminate.
  - exists d', h. split; [exact Hh|]. split; [exact Hu|].
    destruct (Hother 2%nat (<["host" := VStr " brass"]> (with_id "I:II")))
      as (hy & Hhy & H2); [lia|reflexivity|].
    vm_compute in Hhy. injection Hhy as <-. exact H2.
Defined.

(** C10, as stated, fails: the update rewrites records it does not patch.
    Two records share the id "I:I"; the update patches the first, and the
    second, stored with the host " brass", is saved with the host "Braas";
    the third, stored without a host, is saved with a [null] host. *)
Lemma update_session_first_only_counterexample :
  ∃ d' x,
    update_session
      (Data [<["host" := VStr "Braas"]> (with_id "I:I");
             <["host" := VStr " brass"]> (with_id "I:I");
             with_id "I:II"] None)
      "I:I" (with_whisky "Oban 14")
    = Some (d', Updated x)
    ∧ sessions d' !! 1%nat = Some (<["host" := VStr "Braas"]> (with_id "I:I"))
    ∧ <["host" := VStr "Braas"]> (with_id "I:I")
      ≠ <["host" := VStr " brass"]> (with_id "I:I")
    ∧ sessions d' !! 2%nat = Some (stored_id "I:II")
    ∧ stored_id "I:II" ≠ with_id "I:II".
Proof.
  exists (Data [with_whisky "Oban 14"
                ∪ <["host" := VStr "Braas"]> (with_id "I:I");
                <["host" := VStr "Braas"]> (with_id "I:I");
                stored_id "I:II"] None),
         (with_whisky "Oban 14" ∪ <["host" := VStr "Braas"]> (with_id "I:I")).
  split; [vm_compute; reflexivity|]. split; [reflexivity|].
  split; [|split; [reflexivity|]].
  - intros E. apply (f_equal (λ m : session, m !! "host")) in E.
    vm_compute in E. discriminate.
  - intros E. apply (f_equal (λ m : session, m !! "host")) in E.
    vm_compute in E. discriminate.
Qed.

(** ** Sorting *)

Lemma key_le_total (a b : Z * Z) : key_le a b = false → key_le b a = true.
Proof.
  destruct a as [a1 a2], b as [b1 b2]. unfold key_le. simpl.
  destruct (Z.ltb_spec a1 b1), (Z.eqb_spec a1 b1), (Z.leb_spec a2 b2),
    (Z.ltb_spec b1 a1), (Z.eqb_spec b1 a1), (Z.leb_spec b2 a2);
    simpl; try done; lia.
Qed.

Lemma key_le_trans (a b c : Z * Z) : key_le a b → key_le b c → key_le a c.
Proof.
  destruct a as [a1 a2], b as [b1 b2], c as [c1 c2]. unfold key_le. simpl.
  destruct (Z.ltb_spec a1 b1), (Z.eqb_spec a1 b1), (Z.leb_spec a2 b2),
    (Z.ltb_spec b1 c1), (Z.eqb_spec b1 c1), (Z.leb_spec b2 c2),
    (Z.ltb_spec a1 c1), (Z.eqb_spec a1 c1), (Z.leb_spec a2 c2);
    simpl; try done; lia.
Qed.

Lemma key_le_fst (a b : Z * Z) : key_le a b → (a.1 ≤ b.1)%Z.
Proof.
  unfold key_le.
  destruct (Z.ltb_spec a.1 b.1), (Z.eqb_spec a.1 b.1); simpl; try done; lia.
Qed.

Lemma insert_by_key_perm x l : insert_by_key x l ≡ₚ x :: l.
Proof.
  induction l as [|y l IH]; simpl; [done|].
  destruct (key_le x.1 y.1); [done|]. rewrite IH. apply Permutation_swap.
Qed.

Lemma sort_by_key_perm l : sort_by_key l ≡ₚ l.
Proof.
  induction l as [|x l IH]; simpl; [done|].
  rewrite insert_by_key_perm. by rewrite IH.
Qed.

Lemma insert_by_key_sorted x l :
  StronglySorted (λ p q, key_le p.1 q.1) l →
  StronglySorted (λ p q, key_le p.1 q.1) (insert_by_key x l).
Proof.
  induction 1 as [|y l Hs IH Hy]; simpl.
  - repeat constructor.
  - destruct (key_le x.1 y.1) eqn:E.
    + constructor; [by constructor|]. constructor; [by rewrite E|].
      eapply Forall_impl; [exact Hy|]. intros z Hz. simpl in Hz.
      apply (key_le_trans _ y.1); [by rewrite E|done].
    + constructor; [done|]. rewrite insert_by_key_perm.
      constructor; [|done]. by rewrite (key_le_total _ _ E).
Qed.

Lemma sort_by_key_sorted l :
  StronglySorted (λ p q, key_le p.1 q.1) (sort_by_key l).
Proof.
  induction l as [|x l IH]; simpl; [constructor|].
  by apply insert_by_key_sorted.
Qed.

(** Sorting is stable: the records of one key keep their order. *)
Lemma insert_by_key_stable k x l :
  StronglySorted (λ p q, key_le p.1 q.1) l →
  filter (λ p, p.1 = k) (insert_by_key x l) = filter (λ p, p.1 = k) (x :: l).
Proof.
  induction 1 as [|y l Hs IH Hy]; simpl; [done|].
  destruct (key_le x.1 y.1) eqn:E; [done|].
  rewrite (filter_cons _ y), IH, !(filter_cons _ x), !(filter_cons _ y).
  destruct (decide (x.1 = k)) as [Hx|], (decide (y.1 = k)) as [Hy'|];
    try done.
  exfalso. rewrite Hx, Hy' in E.
  destruct k as [k1 k2]. unfold key_le in E. simpl in E.
  destruct (Z.ltb_spec k1 k1), (Z.eqb_spec k1 k1), (Z.leb_spec k2 k2);
    simpl in E; try done; lia.
Qed.

Lemma sort_by_key_stable k l :
  filter (λ p, p.1 = k) (sort_by_key l) = filter (λ p, p.1 = k) l.
Proof.
  induction l as [|x l IH]; simpl; [done|].
  rewrite insert_by_key_stable by apply sort_by_key_sorted.
  by rewrite !(filter_cons _ x), IH.
Qed.

Lemma mapM_keyed (l : list session) dec :
  mapM keyed l = Some dec →
  dec.*2 = l ∧ Forall (λ p, sort_key p.2 = Some p.1) dec.
Proof.
  intros H. apply mapM_Some in H.
  induction H as [|s p l dec Hs _ [IH1 IH2]]; [done|].
  unfold keyed in Hs. destruct (sort_key s) as [k|] eqn:E; [|done].
  injection Hs as <-. simpl. split; [by f_equal|]. by constructor.
Qed.

Lemma StronglySorted_Forall_impl {A} (R R' : relation A) (P : A → Prop) l :
  (∀ a b, P a → P b → R a b → R' a b) →
  Forall P l → StronglySorted R l → StronglySorted R' l.
Proof.
  intros HR HP Hs. induction Hs as [|x l Hs IH Hx]; [constructor|].
  apply Forall_cons in HP as [Hpx HP]. constructor; [by apply IH|].
  rewrite Forall_forall in Hx, HP. apply Forall_forall. intros y Hy.
  apply HR; auto.
Qed.

Lemma sort_sessions_spec (l l' : list session) :
  sort_sessions l = Some l' → l' ≡ₚ l ∧ StronglySorted session_le l'.
Proof.
  unfold sort_sessions. destruct (mapM keyed l) as [dec|] eqn:E; [|done].
  intros [= <-]. apply mapM_keyed in E as [E1 E2]. split.
  - rewrite <- E1. by rewrite sort_by_key_perm.
  - apply (StronglySorted_fmap snd (λ p q, session_le p.2 q.2)); [done|].
    apply (StronglySorted_Forall_impl (λ p q, key_le p.1 q.1) _
             (λ p, sort_key p.2 = Some p.1)).
    + intros a b Ha Hb Hab. unfold session_le. by rewrite Ha, Hb.
    + by rewrite sort_by_key_perm.
    + apply sort_by_key_sorted.
Qed.

Lemma StronglySorted_lookup_lt {A} (R : relation A) l i j a b :
  StronglySorted R l → l !! i = Some a → l !! j = Some b → i < j → R a b.
Proof.
  intros Hs. revert i j. induction Hs as [|x l Hs IH Hx]; intros i j; [done|].
  destruct i as [|i], j as [|j]; simpl; try lia.
  - intros [= ->] Hb _. rewrite Forall_forall in Hx. apply Hx.
    by eapply list_elem_of_lookup_2.
  - intros Ha Hb Hij. apply (IH i j); [done|done|lia].
Qed.

Lemma sort_key_no_separator (s : session) :
  has_separator s = Some false → sort_key s = Some (999, 999)%Z.
Proof.
  unfold has_separator, sort_key, py_or.
  destruct (truthy (get "id" s)) eqn:Ht.
  - destruct (get "id" s) as [| | |t]; try done. simpl. by intros [= ->].
  - done.
Qed.

Lemma sort_key_separator (s : session) :
  has_separator s = Some true →
  ∃ k, sort_key s = Some k ∧ (0 ≤ k.1 ≤ 12)%Z ∧ (0 ≤ k.2 ≤ 12)%Z.
Proof.
  intros H. apply has_separator_true in H as (t & Ht & Hne & Hin).
  unfold sort_key, py_or. rewrite Ht. simpl.
  destruct (String.eqb_spec t ""); [done|]. simpl. rewrite Hin. simpl.
  rewrite str_in_colon_split in Hin. pose proof (split_nonempty ":" t).
  destruct (split ":" t) as [|p0 [|p1 ps]]; try done. simpl.
  eexists. split; [done|]. simpl.
  split; apply roman_to_int_range.
Qed.

(** ** Adding a session *)

Lemma add_session_inv (stored : data) (request : session) d' r :
  add_session stored request = Some (d', r) →
  ∃ loaded h,
    load_data stored = Some loaded
    ∧ normalise_host (get "host" request) = Some h
    ∧ (if truthy (get "id" request) then r = <["host" := h]> request
       else ∃ nid, compute_next_id (sessions loaded) = Some nid
                   ∧ r = <["id" := VStr nid]> (<["host" := h]> request))
    ∧ sort_sessions (sessions loaded ++ [r]) = Some (sessions d')
    ∧ members d' = members stored.
Proof.
  unfold add_session. intros H.
  destruct (load_data stored) as [loaded|] eqn:Hload; simpl in H; [|done].
  destruct (normalise_host (get "host" request)) as [h|]; simpl in H; [|done].
  exists loaded, h. split; [done|]. split; [done|].
  rewrite get_insert_ne in H by done.
  destruct (truthy (get "id" request)); simpl in H.
  - destruct (sort_sessions _) as [sorted|] eqn:Hs; simpl in H; [|done].
    injection H as <- <-. split; [done|]. split; [done|].
    by apply load_data_sessions in Hload as [_ ?].
  - destruct (compute_next_id (sessions loaded)) as [nid|]; simpl in H; [|done].
    destruct (sort_sessions _) as [sorted|] eqn:Hs; simpl in H; [|done].
    injection H as <- <-. split; [by eauto|]. split; [done|].
    by apply load_data_sessions in Hload as [_ ?].
Qed.

(** C2, as amended: the data saved by an add is sorted in ascending order
    of [sort_key], it holds the loaded records and the new one, and every
    record whose id is missing, empty or without separator, which has the
    sentinel key, comes after every record whose id has a separator. *)
Theorem add_session_sorted (stored : data) (request : session) (d' : data)
    (r : session) :
  add_session stored request = Some (d', r) →
  StronglySorted session_le (sessions d')
  ∧ (∀ i j a b, sessions d' !! i = Some a → sessions d' !! j = Some b →
                has_separator a = Some false → has_separator b = Some true →
                j < i)
  ∧ (∃ loaded, load_data stored = Some loaded
               ∧ sessions d' ≡ₚ sessions loaded ++ [r]).
Proof.
  intros H. apply add_session_inv in H as (loaded & h & Hl & _ & _ & Hs & _).
  apply sort_sessions_spec in Hs as [Hp Hs].
  split; [done|]. split; [|by eauto].
  intros i j a b Ha Hb Hsa Hsb.
  destruct (Nat.lt_trichotomy i j) as [Hij|[->|Hij]]; [|congruence|done].
  exfalso.
  pose proof (StronglySorted_lookup_lt _ _ _ _ _ _ Hs Ha Hb Hij) as Hle.
  unfold session_le in Hle. rewrite (sort_key_no_separator a Hsa) in Hle.
  destruct (sort_key_separator b Hsb) as ([k1 k2] & Hkb & Hk1 & Hk2).
  rewrite Hkb in Hle. apply key_le_fst in Hle. cbn [fst snd] in *. lia.
Qed.

Lemma add_session_sorted_witness :
  add_session (Data [stored_id "II:I"; stored_id "draft"] None)
    (with_id "I:VII")
  = Some (Data [stored_id "I:VII"; stored_id "II:I"; stored_id "draft"] None,
          stored_id "I:VII")
  ∧ StronglySorted session_le
      [stored_id "I:VII"; stored_id "II:I"; stored_id "draft"].
Proof.
  assert (add_session (Data [stored_id "II:I"; stored_id "draft"] None)
            (with_id "I:VII")
          = Some (Data [stored_id "I:VII"; stored_id "II:I";
                        stored_id "draft"] None, stored_id "I:VII")) as H
    by (vm_compute; reflexivity).
  split; [exact H|]. exact (proj1 (add_session_sorted _ _ _ _ H)).
Defined.

(** C2, as stated, fails: "x:y" does not decode to two valid components,
    yet its key is [(0, 0)] and the add stores it before the valid
    "I:I". *)
Lemma add_session_invalid_last_counterexample :
  fully_valid (with_id "x:y") = false
  ∧ fully_valid (with_id "I:I") = true
  ∧ (fst <$> add_session (Data [<["host" := VNone]> (with_id "I:I")] None)
               (with_id "x:y"))
    = Some (Data [<["host" := VNone]> (with_id "x:y");
                  <["host" := VNone]> (with_id "I:I")] None).
Proof. by vm_compute. Qed.

(** ** Uniqueness of ids *)

Lemma key_le_refl (a : Z * Z) : key_le a a = true.
Proof.
  unfold key_le.
  destruct (Z.ltb_spec a.1 a.1), (Z.eqb_spec a.1 a.1), (Z.leb_spec a.2 a.2);
    simpl; try done; lia.
Qed.

Lemma sort_key_id (a b : session) :
  get "id" a = get "id" b → sort_key a = sort_key b.
Proof. intros H. unfold sort_key. by rewrite H. Qed.

Lemma ids_Forall2 (l l' : list session) :
  get "id" <$> l = get "id" <$> l' →
  Forall2 (λ a b, get "id" a = get "id" b) l l'.
Proof.
  revert l'. induction l as [|x l IH]; intros [|y l'] E; try done.
  injection E as Exy E. constructor; [done|by apply IH].
Qed.

Lemma valid_ids_ids (l l' : list session) :
  get "id" <$> l = get "id" <$> l' → valid_ids l = valid_ids l'.
Proof.
  intros E. unfold valid_ids. apply list_omap_ext.
  eapply Forall2_impl; [by apply ids_Forall2|].
  intros a b Hab. simpl. by rewrite Hab.
Qed.

Lemma StronglySorted_ids (l l' : list session) :
  get "id" <$> l = get "id" <$> l' →
  StronglySorted session_le l → StronglySorted session_le l'.
Proof.
  intros E Hs. apply ids_Forall2 in E. revert l' E.
  induction Hs as [|x l Hs IH Hx]; intros l' E.
  - apply Forall2_nil_inv_l in E as ->. constructor.
  - apply Forall2_cons_inv_l in E as (y & k & Hxy & E & ->).
    constructor; [by apply IH|].
    clear IH Hs. induction E as [|z z' l k Hz E IH]; [constructor|].
    apply Forall_cons in Hx as [Hxz Hx]. constructor; [|by apply IH].
    unfold session_le in *.
    by rewrite <- (sort_key_id x y Hxy), <- (sort_key_id z z' Hz).
Qed.

Lemma sort_key_decoded (s : session) (p : Z * Z) :
  decoded s = Some p → sort_key s = Some p.
Proof.
  unfold decoded, sort_key, py_or. intros H.
  destruct (get "id" s) as [| | |t]; try done.
  destruct (decode_id_separator t p H) as [Hin Hne]. simpl.
  destruct (String.eqb_spec t ""); [done|]. simpl. rewrite Hin. simpl.
  unfold decode_id in H.
  destruct (split ":" t) as [|r [|si [|]]]; try done. simpl.
  by destruct (Z.eqb (roman_to_int r) 0 || Z.eqb (roman_to_int si) 0)%Z;
    [|injection H as <-].
Qed.

Lemma valid_ids_elem (l : list session) (t : string) :
  t ∈ valid_ids l ↔
  ∃ s p, s ∈ l ∧ get "id" s = VStr t ∧ decode_id t = Some p.
Proof.
  unfold valid_ids. rewrite list_elem_of_omap. split.
  - intros (s & Hs & H). destruct (get "id" s) as [| | |u] eqn:E; try done.
    destruct (decode_id u) as [p|] eqn:Hd; [|done]. injection H as ->.
    by exists s, p.
  - intros (s & p & Hs & Hid & Hd). exists s. split; [done|].
    by rewrite Hid, Hd.
Qed.

Lemma filter_sessions_complete (c : session → option bool)
    (l r : list session) :
  filter_sessions c l = Some r → ∀ x, x ∈ l → c x = Some true → x ∈ r.
Proof.
  revert r. induction l as [|y l IH]; intros r Hf x Hx Hc;
    [by apply elem_of_nil in Hx|].
  simpl in Hf. destruct (c y) as [b|] eqn:Hy; simpl in Hf; [|done].
  destruct (filter_sessions c l) as [r'|]; simpl in Hf; [|done].
  injection Hf as <-. apply elem_of_cons in Hx as [->|Hx].
  - assert (b = true) as -> by congruence. by left.
  - specialize (IH r' eq_refl x Hx Hc). destruct b; [by right|done].
Qed.

(** The last record that passes the filter splits the list: no record
    after it passes. *)
Lemma filter_sessions_last (c : session → option bool) (l valid : list session)
    (s0 : session) :
  filter_sessions c l = Some valid → last valid = Some s0 →
  ∃ l1 l2, l = l1 ++ s0 :: l2 ∧ Forall (λ x, c x = Some false) l2.
Proof.
  revert valid. induction l as [|y l IH] using rev_ind; intros valid Hf Hl.
  - injection Hf as <-. done.
  - rewrite filter_sessions_app in Hf.
    destruct (filter_sessions c l) as [r|] eqn:Hr; simpl in Hf; [|done].
    destruct (c y) as [b|] eqn:Hy; simpl in Hf; [|done].
    injection Hf as <-. destruct b.
    + rewrite last_snoc in Hl. injection Hl as ->.
      exists l, []. by split.
    + rewrite app_nil_r in Hl. destruct (IH r eq_refl Hl) as (l1 & l2 & -> & H2).
      exists l1, (l2 ++ [y]). split; [by rewrite <- app_assoc|].
      apply Forall_app. split; [done|]. by constructor.
Qed.

Lemma successor_decoded (p0 p : Z * Z) :
  (1 ≤ p0.1 ≤ 12)%Z → (1 ≤ p0.2 ≤ 12)%Z →
  decode_id (render (successor members_per_round p0)) = Some p →
  key_le p p0 = false.
Proof.
  destruct p0 as [r0 s0]. simpl. intros Hr Hs. unfold successor. simpl.
  destruct (Z.leb_spec members_per_round s0) as [Hge|Hlt].
  - destruct (decide (r0 = 12%Z)) as [->|Hne]; [by vm_compute|].
    rewrite decode_render by lia. intros [= <-]. unfold key_le. simpl.
    destruct (Z.ltb_spec (r0 + 1) r0), (Z.eqb_spec (r0 + 1) r0);
      simpl; try done; lia.
  - unfold members_per_round in Hlt.
    rewrite decode_render by lia. intros [= <-]. unfold key_le. simpl.
    destruct (Z.ltb_spec r0 r0), (Z.eqb_spec r0 r0), (Z.leb_spec (s0 + 1) s0);
      simpl; try done; lia.
Qed.

(** The id allocated over a sorted registry whose separator-bearing ids
    are all valid is not the id of a stored record. *)
Lemma compute_next_id_fresh (l : list session) (nid : string) (p : Z * Z) :
  StronglySorted session_le l →
  Forall (λ s, has_separator s = Some true → fully_valid s = true) l →
  compute_next_id l = Some nid →
  decode_id nid = Some p →
  nid ∉ valid_ids l.
Proof.
  intros Hsorted Hvalid Hnext Hp Hin.
  apply valid_ids_elem in Hin as (x & px & Hx & Hidx & Hdx).
  assert (px = p) as -> by congruence.
  assert (decoded x = Some p) as Hdecx by (unfold decoded; by rewrite Hidx).
  assert (has_separator x = Some true) as Hsepx.
  { apply fully_valid_has_separator. unfold fully_valid. by rewrite Hdecx. }
  destruct (filter_sessions has_separator l) as [valid|] eqn:Hf;
    [|by unfold compute_next_id in Hnext; rewrite Hf in Hnext].
  destruct (last valid) as [s0|] eqn:Hlast.
  - destruct (filter_sessions_last _ _ _ _ Hf Hlast) as (l1 & l2 & -> & Hl2).
    assert (s0 ∈ l1 ++ s0 :: l2) as Hs0 by (apply elem_of_app; right; by left).
    assert (has_separator s0 = Some true) as Hsep0.
    { apply (filter_sessions_elem _ _ _ Hf).
      apply last_Some in Hlast as [v ->]. apply elem_of_app; right; by left. }
    rewrite Forall_forall in Hvalid. pose proof (Hvalid s0 Hs0 Hsep0) as Hv0.
    unfold fully_valid in Hv0.
    destruct (decoded s0) as [p0|] eqn:Hd0; [|done].
    assert (∃ t0, get "id" s0 = VStr t0 ∧ decode_id t0 = Some p0)
      as (t0 & Ht0 & Hdt0).
    { unfold decoded in Hd0. destruct (get "id" s0); try done. by eexists. }
    rewrite (compute_next_id_last _ _ _ _ Hf Hlast Ht0), Hdt0 in Hnext.
    injection Hnext as <-.
    destruct (decode_id_range _ _ Hdt0) as [Hr0 Hs0'].
    pose proof (successor_decoded p0 p Hr0 Hs0' Hp) as Hgt.
    assert (session_le x s0) as Hle.
    { apply StronglySorted_app in Hsorted as (Hcross & _ & Hright).
      apply elem_of_app in Hx as [Hx|Hx].
      - apply Hcross; [done|by left].
      - apply elem_of_cons in Hx as [->|Hx].
        + unfold session_le. rewrite (sort_key_decoded _ _ Hd0).
          rewrite Hd0 in Hdecx. injection Hdecx as ->.
          by rewrite key_le_refl in Hgt.
        + rewrite Forall_forall in Hl2. specialize (Hl2 x Hx). congruence. }
    unfold session_le in Hle.
    rewrite (sort_key_decoded _ _ Hdecx), (sort_key_decoded _ _ Hd0) in Hle.
    by rewrite Hgt in Hle.
  - apply last_None in Hlast as ->.
    pose proof (filter_sessions_complete _ _ _ Hf x Hx Hsepx) as Hxv.
    by apply elem_of_nil in Hxv.
Qed.

Lemma has_separator_id (a b : session) :
  get "id" a = get "id" b → has_separator a = has_separator b.
Proof. intros H. unfold has_separator. by rewrite H. Qed.

Lemma fully_valid_id (a b : session) :
  get "id" a = get "id" b → fully_valid a = fully_valid b.
Proof. intros H. unfold fully_valid, decoded. by rewrite H. Qed.

Lemma get_union_r (k : string) (upd s : session) :
  upd !! k = None → get k (upd ∪ s) = get k s.
Proof. intros H. unfold get. by rewrite lookup_union_r. Qed.

Lemma update_first_ids (sid : string) (upd : session) (l l' : list session)
    (r : session) :
  upd !! "id" = None →
  update_first sid upd l = Some (l', r) →
  get "id" <$> l' = get "id" <$> l.
Proof.
  intros Hupd. revert l'. induction l as [|x l IH]; intros l' H; [done|].
  simpl in H. destruct (py_eq_str (get "id" x) sid).
  - injection H as <- <-. rewrite !fmap_cons. by rewrite get_union_r.
  - destruct (update_first sid upd l) as [[l'' r']|]; simpl in H; [|done].
    injection H as <- <-. rewrite !fmap_cons. by rewrite (IH l'' eq_refl).
Qed.

Lemma update_session_ids (stored : data) (sid : string) (upd : session) d' r :
  upd !! "id" = None →
  update_session stored sid upd = Some (d', r) →
  get "id" <$> sessions d' = get "id" <$> sessions stored.
Proof.
  intros Hupd. unfold update_session.
  destruct (load_data stored) as [loaded|] eqn:Hload; simpl; [|done].
  destruct (update_first sid upd (sessions loaded)) as [[l s]|] eqn:Hu.
  - intros [= <- <-]. simpl. rewrite (update_first_ids _ _ _ _ _ Hupd Hu).
    by apply load_data_ids.
  - by intros [= <- <-].
Qed.

Lemma add_session_allocated_unique (stored : data) (request : session) d' r :
  StronglySorted session_le (sessions stored) →
  Forall (λ s, has_separator s = Some true → fully_valid s = true)
         (sessions stored) →
  NoDup (valid_ids (sessions stored)) →
  truthy (get "id" request) = false →
  add_session stored request = Some (d', r) →
  NoDup (valid_ids (sessions d')).
Proof.
  intros Hsorted Hvalid Hnodup Hid Hadd.
  apply add_session_inv in Hadd as (loaded & h & Hload & _ & Hr & Hsort & _).
  rewrite Hid in Hr. destruct Hr as (nid & Hnext & ->).
  pose proof (load_data_ids _ _ Hload) as Hids.
  apply sort_sessions_spec in Hsort as [Hperm _].
  unfold valid_ids in *. rewrite Hperm, omap_app. fold (valid_ids (sessions loaded)).
  rewrite (valid_ids_ids _ _ Hids). simpl. rewrite get_insert_eq.
  destruct (decode_id nid) as [p|] eqn:Hp; simpl.
  - apply NoDup_app. split; [done|]. split; [|apply NoDup_singleton].
    intros t Ht Hin. apply list_elem_of_singleton in Hin as ->.
    revert Ht. fold (valid_ids (sessions stored)).
    rewrite <- (valid_ids_ids _ _ Hids).
    apply (compute_next_id_fresh _ _ p); [| |done|done].
    + by apply (StronglySorted_ids (sessions stored)).
    + symmetry in Hids. apply ids_Forall2 in Hids.
      clear -Hids Hvalid. induction Hids as [|a b l k Hab _ IH]; [done|].
      apply Forall_cons in Hvalid as [Ha Hvalid]. constructor; [|by apply IH].
      by rewrite <- (has_separator_id a b Hab), <- (fully_valid_id a b Hab).
  - by rewrite app_nil_r.
Qed.

(** C3, as amended: nothing checks an id on insert or update, so an add
    with an explicit id and an update that sets [id] store what they are
    given.  Uniqueness among the valid ids is kept by an add that leaves
    the id to the allocation, over a registry sorted by key whose
    separator-bearing ids are all valid, and by an update whose patch has
    no [id]. *)
Theorem unique_ids_preserved (stored : data) :
  NoDup (valid_ids (sessions stored)) →
  (∀ request d' r,
     StronglySorted session_le (sessions stored) →
     Forall (λ s, has_separator s = Some true → fully_valid s = true)
            (sessions stored) →
     truthy (get "id" request) = false →
     add_session stored request = Some (d', r) →
     NoDup (valid_ids (sessions d')))
  ∧ (∀ session_id updates d' r,
       updates !! "id" = None →
       update_session stored session_id updates = Some (d', r) →
       NoDup (valid_ids (sessions d'))).
Proof.
  intros Hnodup. split.
  - intros request d' r Hsorted Hvalid Hid Hadd.
    by apply (add_session_allocated_unique stored request d' r).
  - intros sid upd d' r Hupd Hu.
    by rewrite (valid_ids_ids _ _ (update_session_ids _ _ _ _ _ Hupd Hu)).
Qed.

Lemma unique_ids_preserved_witness :
  add_session (Data [stored_id "I:I"; stored_id "I:II"] None)
    (with_whisky "Oban 14")
  = Some (Data [stored_id "I:I"; stored_id "I:II";
                <["id" := VStr "I:III"]>
                  (<["host" := VNone]> (with_whisky "Oban 14"))] None,
          <["id" := VStr "I:III"]>
            (<["host" := VNone]> (with_whisky "Oban 14")))
  ∧ NoDup (valid_ids [stored_id "I:I"; stored_id "I:II";
                      <["id" := VStr "I:III"]>
                        (<["host" := VNone]> (with_whisky "Oban 14"))]).
Proof.
  assert (add_session (Data [stored_id "I:I"; stored_id "I:II"] None)
            (with_whisky "Oban 14")
          = Some (Data [stored_id "I:I"; stored_id "I:II";
                        <["id" := VStr "I:III"]>
                          (<["host" := VNone]> (with_whisky "Oban 14"))] None,
                  <["id" := VStr "I:III"]>
                    (<["host" := VNone]> (with_whisky "Oban 14")))) as H
    by (vm_compute; reflexivity).
  split; [exact H|].
  refine (proj1 (unique_ids_preserved
                   (Data [stored_id "I:I"; stored_id "I:II"] None) _)
            (with_whisky "Oban 14") _ _ _ _ _ H).
  - apply (bool_decide_unpack _). vm_compute. exact I.
  - repeat constructor; vm_compute; exact I.
  - repeat constructor.
  - reflexivity.
Defined.

(** C3, as stated, fails: an add with the explicit id of a stored record,
    and an update that sets the id of a stored record, both leave two
    records with the valid id "I:I". *)
Lemma unique_ids_counterexample :
  ((λ x, valid_ids (sessions x.1))
     <$> add_session (Data [<["host" := VNone]> (with_id "I:I")] None)
           (with_id "I:I"))
  = Some ["I:I"; "I:I"]
  ∧ ((λ x, valid_ids (sessions x.1))
       <$> update_session (Data [<["host" := VNone]> (with_id "I:I");
                                 <["host" := VNone]> (with_id "I:II")] None)
             "I:II" (with_id "I:I"))
    = Some ["I:I"; "I:I"]
  ∧ ¬ NoDup ["I:I"; "I:I"].
Proof.
  split; [by vm_compute|]. split; [by vm_compute|].
  intros H. apply NoDup_cons in H as [H _]. apply H. by left.
Qed.

(** ** Enrichment *)

Lemma merge_result_image (s result : session) :
  get "image_url" (merge_result s result) =
  if truthy (get "image_url" s) then get "image_url" s
  else if truthy (get "image_url" result) then get "image_url" result
       else get "image_url" s.
Proof.
  unfold merge_result.
  destruct (truthy (get "image_url" s)) eqn:Hi,
    (truthy (get "image_url" result)) eqn:Hr; simpl;
    repeat (case_match; rewrite ?get_insert_ne, ?get_insert_eq by done);
    try done; by rewrite Hi.
Qed.

Lemma merge_result_rrp (s result : session) :
  get "rrp" (merge_result s result) =
  if truthy (get "rrp" s) then get "rrp" s
  else if truthy (get "price" result) then get "price" result
       else get "rrp" s.
Proof.
  unfold merge_result.
  set (s1 := if negb (truthy (get "image_url" s))
                && truthy (get "image_url" result)
             then <["image_url" := get "image_url" result]> s else s).
  assert (get "rrp" s1 = get "rrp" s) as E.
  { subst s1. case_match; [by apply get_insert_ne|done]. }
  rewrite E.
  destruct (truthy (get "rrp" s)), (truthy (get "price" result)),
    (truthy (get "dm_url" result)); simpl;
    by rewrite ?get_insert_ne, ?get_insert_eq by done.
Qed.

Lemma merge_result_dm_url (s result : session) :
  get "dm_url" (merge_result s result) =
  if truthy (get "dm_url" result) then get "dm_url" result
  else get "dm_url" s.
Proof.
  unfold merge_result.
  destruct (truthy (get "dm_url" result)); simpl;
    repeat (case_match; rewrite ?get_insert_ne, ?get_insert_eq by done);
    done.
Qed.

Lemma merge_result_other (s result : session) (k : string) :
  k ≠ "image_url" → k ≠ "rrp" → k ≠ "dm_url" →
  merge_result s result !! k = s !! k.
Proof.
  intros H1 H2 H3. unfold merge_result.
  repeat (case_match; rewrite ?lookup_insert_ne by done); done.
Qed.

Lemma enrich_one_status (lookup : string → option session) (s s' : session)
    (st : status) :
  enrich_one lookup s = Some (s', st) →
  eligible s = match st with Skipped => false | _ => true end.
Proof.
  unfold enrich_one, eligible.
  destruct (truthy (get "whisky" s)); simpl; [|by intros [= <- <-]].
  destruct (truthy (get "image_url" s) && truthy (get "rrp" s)
            && truthy (get "dm_url" s)); simpl; [by intros [= <- <-]|].
  destruct (get "whisky" s) as [| | |w]; try done.
  destruct (lookup w) as [result|]; [|by intros [= <- <-]].
  by destruct (dict_truthy result); intros [= <- <-].
Qed.

Lemma enrich_loop_counts (lookup : string → option session)
    (l r : list session) (e f e' f' : nat) :
  enrich_loop lookup l e f = Some (r, e', f') →
  e' + f' = e + f + length (filter (λ s, eligible s) l)
  ∧ length r = length l.
Proof.
  revert r e f. induction l as [|s l IH]; intros r e f H; simpl in H.
  - injection H as <- <- <-. simpl. lia.
  - destruct (enrich_one lookup s) as [[s' st]|] eqn:Hs; simpl in H; [|done].
    destruct (enrich_loop lookup l _ _) as [[[r0 e0] f0]|] eqn:Hl;
      simpl in H; [|done].
    injection H as <- <- <-. apply IH in Hl as [Hl Hlen].
    apply enrich_one_status in Hs. rewrite filter_cons.
    destruct st; rewrite Hs; simpl; lia.
Qed.

Lemma load_session_eligible (s s' : session) :
  load_session s = Some s' → eligible s' = eligible s.
Proof.
  intros H. unfold eligible.
  by rewrite !(load_session_get s s' _ H) by done.
Qed.

(** C9: the two counts of a batch add up to the number of stored records
    with a non-empty whisky and an empty [image_url], [rrp] or [dm_url]. *)
Theorem enrich_all_counts (stored : data) (lookup : string → option session)
    (d' : data) (enriched failed : nat) :
  enrich_all stored lookup = Some (d', enriched, failed) →
  enriched + failed = length (filter (λ s, eligible s) (sessions stored)).
Proof.
  unfold enrich_all.
  destruct (load_data stored) as [loaded|] eqn:Hload; simpl; [|done].
  destruct (enrich_loop lookup (sessions loaded) 0 0) as [[[l e] f]|] eqn:Hl;
    simpl; [|done].
  intros [= <- <- <-]. apply enrich_loop_counts in Hl as [-> _]. simpl.
  apply load_data_sessions in Hload as [HF _].
  induction HF as [|s s' k k' Hs _ IH]; [done|].
  rewrite !filter_cons, (load_session_eligible s s' Hs).
  destruct (decide (eligible s)); simpl; by rewrite IH.
Qed.

Lemma enrich_all_counts_witness :
  enrich_all (Data [sample_record; with_whisky "Ardbeg 10"; with_id "I:I"] None)
    sample_lookup
  = Some (Data [merge_result (<["host" := VNone]> sample_record) sample_result;
                <["host" := VNone]> (with_whisky "Ardbeg 10");
                stored_id "I:I"] None, 1, 1)
  ∧ 1 + 1 = length (filter (λ s, eligible s)
                      [sample_record; with_whisky "Ardbeg 10"; with_id "I:I"]).
Proof.
  assert (enrich_all
            (Data [sample_record; with_whisky "Ardbeg 10"; with_id "I:I"] None)
            sample_lookup
          = Some (Data [merge_result (<["host" := VNone]> sample_record)
                          sample_result;
                        <["host" := VNone]> (with_whisky "Ardbeg 10");
                        stored_id "I:I"] None, 1, 1)) as H
    by (vm_compute; reflexivity).
  split; [exact H|]. exact (enrich_all_counts _ _ _ _ _ H).
Defined.

(** ** Search *)

Lemma for_each_app {A B} (body : A → B → option A) (acc : A) (l l' : list B) :
  for_each body acc (l ++ l') =
  acc' ← for_each body acc l; for_each body acc' l'.
Proof.
  revert acc. induction l as [|x l IH]; intros acc; simpl; [done|].
  destruct (body acc x); simpl; [apply IH|done].
Qed.

(** One round of a search loop keeps [seen] the set of the lower-cased
    names of [results], without repetition, and adds at most one result,
    under a name not seen before. *)
Lemma search_pass_inv (ql : string) (whisky_of : session → value)
    (result_of : value → session → session) (src : string)
    (seen seen' : gset string) (results results' : list session)
    (ns : list string) (s : session) :
  (∀ v x, get "whisky" (result_of v x) = v) →
  (∀ v x, get "source" (result_of v x) = VStr src) →
  search_pass ql whisky_of result_of (seen, results) s = Some (seen', results') →
  Forall2 (λ r n, result_name r = Some n) results ns →
  NoDup ns →
  (∀ n, n ∈ seen ↔ n ∈ ns) →
  ∃ extra ens,
    results' = results ++ extra
    ∧ Forall2 (λ r n, result_name r = Some n) extra ens
    ∧ NoDup (ns ++ ens)
    ∧ (∀ n, n ∈ seen' ↔ n ∈ ns ++ ens)
    ∧ Forall (λ r, get "source" r = VStr src) extra
    ∧ (∀ t, whisky_of s = VStr t → str_in ql (lower t) = true →
            lower t ∈ seen').
Proof.
  intros Hw Hsrc Hstep Hnames Hnodup Hseen. unfold search_pass in Hstep.
  destruct (py_lower (whisky_of s)) as [wl|] eqn:Hwl; simpl in Hstep; [|done].
  assert (∀ t, whisky_of s = VStr t → wl = lower t) as Hlow.
  { intros t Ht. rewrite Ht in Hwl. by injection Hwl as <-. }
  destruct (str_in ql wl) eqn:Hin; simpl in Hstep.
  - destruct (decide (wl ∈ seen)) as [Hs|Hs].
    + rewrite bool_decide_eq_true_2 in Hstep by done. simpl in Hstep.
      injection Hstep as <- <-. exists [], [].
      rewrite !app_nil_r. repeat split; try done; try apply Hseen.
      intros t Ht _. by rewrite <- (Hlow t Ht).
    + rewrite bool_decide_eq_false_2 in Hstep by done. simpl in Hstep.
      injection Hstep as <- <-.
      exists [result_of (whisky_of s) s], [wl]. split; [done|].
      split; [constructor; [|done]; unfold result_name; by rewrite Hw|].
      split.
      { apply NoDup_app. split; [done|]. split; [|apply NoDup_singleton].
        intros n Hn Hn'. apply list_elem_of_singleton in Hn' as ->.
        by apply Hs, Hseen. }
      split.
      { intros n. rewrite elem_of_union, elem_of_singleton, elem_of_app,
          list_elem_of_singleton, Hseen. tauto. }
      split; [by constructor|].
      intros t Ht _. rewrite <- (Hlow t Ht).
      apply elem_of_union. left. by apply elem_of_singleton.
  - injection Hstep as <- <-. exists [], [].
    rewrite !app_nil_r. repeat split; try done; try apply Hseen.
    intros t Ht Hq. rewrite <- (Hlow t Ht) in Hq. congruence.
Qed.

Lemma search_loop_inv (ql : string) (whisky_of : session → value)
    (result_of : value → session → session) (src : string)
    (l : list session)
    (seen seen' : gset string) (results results' : list session)
    (ns : list string) :
  (∀ v x, get "whisky" (result_of v x) = v) →
  (∀ v x, get "source" (result_of v x) = VStr src) →
  for_each (search_pass ql whisky_of result_of) (seen, results) l
  = Some (seen', results') →
  Forall2 (λ r n, result_name r = Some n) results ns →
  NoDup ns →
  (∀ n, n ∈ seen ↔ n ∈ ns) →
  ∃ extra ens,
    results' = results ++ extra
    ∧ Forall2 (λ r n, result_name r = Some n) extra ens
    ∧ NoDup (ns ++ ens)
    ∧ (∀ n, n ∈ seen' ↔ n ∈ ns ++ ens)
    ∧ Forall (λ r, get "source" r = VStr src) extra
    ∧ (∀ s t, s ∈ l → whisky_of s = VStr t → str_in ql (lower t) = true →
              lower t ∈ seen').
Proof.
  intros Hw Hsrc. revert seen results ns.
  induction l as [|s l IH]; intros seen results ns Hloop Hnames Hnodup Hseen.
  - injection Hloop as <- <-. exists [], [].
    rewrite !app_nil_r. repeat split; try done; try apply Hseen.
    intros s t Hs. by apply elem_of_nil in Hs.
  - simpl in Hloop.
    destruct (search_pass ql whisky_of result_of (seen, results) s)
      as [[seen1 results1]|] eqn:Hstep; simpl in Hloop; [|done].
    destruct (search_pass_inv _ _ _ _ _ _ _ _ _ _ Hw Hsrc Hstep
                Hnames Hnodup Hseen)
      as (extra1 & ens1 & -> & Hn1 & Hd1 & Hs1 & Hsrc1 & Hm1).
    destruct (IH seen1 (results ++ extra1) (ns ++ ens1) Hloop
                ltac:(by apply Forall2_app) Hd1 Hs1)
      as (extra2 & ens2 & -> & Hn2 & Hd2 & Hs2 & Hsrc2 & Hm2).
    exists (extra1 ++ extra2), (ens1 ++ ens2).
    rewrite !app_assoc. split; [done|].
    split; [by apply Forall2_app|]. split; [done|]. split; [done|].
    split; [by apply Forall_app|].
    intros x t Hx Ht Hq. apply elem_of_cons in Hx as [->|Hx].
    + apply Hs2. rewrite elem_of_app. left. apply Hs1. by apply Hm1.
    + by apply (Hm2 x t).
Qed.

Lemma local_result_fields (v : value) (x : session) :
  get "whisky" (local_result v x) = v
  ∧ get "source" (local_result v x) = VStr "local".
Proof.
  unfold local_result. split; [apply get_insert_eq|].
  by rewrite !get_insert_ne, get_insert_eq by done.
Qed.

Lemma library_result_fields (v : value) (x : session) :
  get "whisky" (library_result v x) = v
  ∧ get "source" (library_result v x) = VStr "library".
Proof.
  unfold library_result. split; [apply get_insert_eq|].
  by rewrite !get_insert_ne, get_insert_eq by done.
Qed.

(** The two passes: the results of the local pass, then those of the
    library pass, under names that are pairwise distinct; every name the
    query matches in the local list is among those of the local pass. *)
Lemma search_matches_spec (ql : string) (local library all : list session) :
  search_matches ql local library = Some all →
  ∃ res1 res2 ns1 ns2,
    all = res1 ++ res2
    ∧ Forall2 (λ r n, result_name r = Some n) res1 ns1
    ∧ Forall2 (λ r n, result_name r = Some n) res2 ns2
    ∧ NoDup (ns1 ++ ns2)
    ∧ Forall (λ r, get "source" r = VStr "local") res1
    ∧ Forall (λ r, get "source" r = VStr "library") res2
    ∧ (∀ s t, s ∈ local → local_whisky s = VStr t →
              str_in ql (lower t) = true → lower t ∈ ns1).
Proof.
  unfold search_matches. intros H.
  destruct (for_each (search_pass ql local_whisky local_result) (∅, []) local)
    as [[seen1 res1]|] eqn:H1; simpl in H; [|done].
  destruct (for_each (search_pass ql library_whisky library_result)
              (seen1, res1) library)
    as [[seen2 res]|] eqn:H2; simpl in H; [|done].
  injection H as <-.
  destruct (search_loop_inv ql local_whisky local_result "local" local
              ∅ seen1 [] res1 []
              (λ v x, proj1 (local_result_fields v x))
              (λ v x, proj2 (local_result_fields v x)) H1)
    as (extra1 & ens1 & -> & Hn1 & Hd1 & Hs1 & Hsrc1 & Hm1);
    [constructor|constructor| |].
  { intros n. split; intros Hn.
    - by apply not_elem_of_empty in Hn.
    - by apply elem_of_nil in Hn. }
  simpl in *.
  destruct (search_loop_inv ql library_whisky library_result "library" library
              seen1 seen2 extra1 res ens1
              (λ v x, proj1 (library_result_fields v x))
              (λ v x, proj2 (library_result_fields v x)) H2 Hn1 Hd1 Hs1)
    as (extra2 & ens2 & -> & Hn2 & Hd2 & Hs2 & Hsrc2 & _).
  exists extra1, extra2, ens1, ens2. repeat split; try done.
  intros s t Hs Ht Hq. apply Hs1. by apply (Hm1 s t).
Qed.

Lemma strip_length_nonempty (q : string) :
  (2 ≤ String.length q)%nat →
  (String.eqb q "" || Nat.ltb (String.length q) 2) = false.
Proof.
  intros H. destruct (String.eqb_spec q "") as [->|_]; [simpl in H; lia|].
  simpl. by apply Nat.ltb_ge.
Qed.

(** C6, as amended: for a query of at least two characters after trimming,
    a name that the query matches in the session history has exactly one
    result in the sequence the two passes build over the loaded history
    and the library, and that result is sourced "local", whether or not
    the library holds the name too; the search returns the first ten
    results of that sequence, so it returns at most one result for the
    name, sourced "local": exactly one when fewer than ten results precede
    it, and none otherwise. *)
Theorem search_whisky_dedup (stored : data) (library : list session)
    (q_arg : string) (results : list session) (s : session) (w : string) :
  search_whisky stored library q_arg = Some results →
  (2 ≤ String.length (strip q_arg))%nat →
  s ∈ sessions stored →
  get "whisky" s = VStr w →
  str_in (lower (strip q_arg)) (lower w) = true →
  ∃ loaded all i r,
    load_data stored = Some loaded
    ∧ search_matches (lower (strip q_arg)) (sessions loaded) library = Some all
    ∧ results = take 10 all
    ∧ all !! i = Some r
    ∧ result_name r = Some (lower w)
    ∧ get "source" r = VStr "local"
    ∧ (∀ j r', all !! j = Some r' → result_name r' = Some (lower w) → j = i)
    ∧ ((i < 10)%nat → results !! i = Some r)
    ∧ (∀ j r', results !! j = Some r' → result_name r' = Some (lower w) →
               j = i ∧ r' = r)
    ∧ ((10 ≤ i)%nat →
       ∀ r', r' ∈ results → result_name r' ≠ Some (lower w)).
Proof.
  intros Hsearch Hlen Hs Hw Hq. unfold search_whisky in Hsearch.
  rewrite (strip_length_nonempty _ Hlen) in Hsearch.
  destruct (load_data stored) as [loaded|] eqn:Hload; simpl in Hsearch; [|done].
  destruct (search_matches (lower (strip q_arg)) (sessions loaded) library)
    as [all|] eqn:Hall; simpl in Hsearch; [|done].
  injection Hsearch as <-.
  destruct (search_matches_spec _ _ _ _ Hall)
    as (res1 & res2 & ns1 & ns2 & -> & Hn1 & Hn2 & Hnodup & Hsrc1 & _ & Hm).
  pose proof (load_data_sessions _ _ Hload) as [HF _].
  apply list_elem_of_lookup in Hs as [k Hk].
  destruct (Forall2_lookup_l _ _ _ _ _ HF Hk) as (s' & Hk' & Hls).
  assert (local_whisky s' = VStr w) as Hw'.
  { unfold local_whisky, py_or.
    rewrite (load_session_get s s' "whisky" Hls), Hw by done.
    simpl. by destruct (String.eqb_spec w "") as [->|]. }
  assert (lower w ∈ ns1) as Hin.
  { apply (Hm s' w); [by eapply list_elem_of_lookup_2|done|done]. }
  apply list_elem_of_lookup in Hin as [i Hi].
  destruct (Forall2_lookup_r _ _ _ _ _ Hn1 Hi) as (r & Hr & Hname).
  assert (∀ j r', (res1 ++ res2) !! j = Some r' →
                  result_name r' = Some (lower w) → j = i) as Huniq.
  { intros j r' Hj Hn'.
    assert (Forall2 (λ r n, result_name r = Some n) (res1 ++ res2)
              (ns1 ++ ns2)) as Hn12 by by apply Forall2_app.
    destruct (Forall2_lookup_l _ _ _ _ _ Hn12 Hj) as (n & Hnj & Hn).
    assert (n = lower w) as -> by congruence.
    apply (NoDup_lookup _ _ _ _ Hnodup Hnj). by apply lookup_app_l_Some. }
  exists loaded, (res1 ++ res2), i, r.
  split; [done|]. split; [done|].
  split; [done|]. split; [by apply lookup_app_l_Some|].
  split; [done|].
  split; [rewrite Forall_forall in Hsrc1; apply Hsrc1;
          by eapply list_elem_of_lookup_2|].
  split; [done|]. split; [|split].
  - intros Hi10. rewrite lookup_take_lt by done. by apply lookup_app_l_Some.
  - intros j r' Hj Hn'. apply lookup_take_Some in Hj as [Hj _].
    pose proof (Huniq j r' Hj Hn') as ->. split; [done|].
    rewrite (lookup_app_l_Some _ _ _ _ Hr) in Hj. congruence.
  - intros Hi10 r' Hr' Hn'. apply list_elem_of_lookup in Hr' as [j Hj].
    apply lookup_take_Some in Hj as [Hj Hj10].
    pose proof (Huniq j r' Hj Hn'). lia.
Qed.

Lemma search_whisky_dedup_witness :
  ∃ loaded all i r,
    load_data (Data [with_whisky "Talisker 10"; with_whisky "Oban 14"] None)
    = Some loaded
    ∧ search_matches (lower (strip " talisker ")) (sessions loaded)
        [with_whisky "TALISKER 10"; with_whisky "Talisker Storm"]
      = Some all
    ∧ [local_result (VStr "Talisker 10")
         (<["host" := VNone]> (with_whisky "Talisker 10"));
       library_result (VStr "Talisker Storm") (with_whisky "Talisker Storm")]
      = take 10 all
    ∧ all !! i = Some r
    ∧ result_name r = Some "talisker 10"
    ∧ get "source" r = VStr "local".
Proof.
  destruct (search_whisky_dedup
              (Data [with_whisky "Talisker 10"; with_whisky "Oban 14"] None)
              [with_whisky "TALISKER 10"; with_whisky "Talisker Storm"]
              " talisker "
              [local_result (VStr "Talisker 10")
                 (<["host" := VNone]> (with_whisky "Talisker 10"));
               library_result (VStr "Talisker Storm")
                 (with_whisky "Talisker Storm")]
              (with_whisky "Talisker 10") "Talisker 10")
    as (loaded & all & i & r & Hload & Hall & Hres & Hi & Hname & Hsrc & _).
  - vm_compute; reflexivity.
  - vm_compute; lia.
  - by left.
  - reflexivity.
  - reflexivity.
  - exists loaded, all, i, r. split; [exact Hload|]. split; [exact Hall|].
    split; [exact Hres|]. split; [exact Hi|]. split; [exact Hname|exact Hsrc].
Defined.

(** C6, as stated, fails twice.  The query "cask" matches "Cask 11" in the
    history and "CASK 11" in the library, but ten other names come first
    and the limit cuts the only result for it: none is returned.  The
    query "c" matches the same names and the guard on the length of the
    query returns no result at all. *)
Lemma search_whisky_dedup_counterexample :
  with_whisky "Cask 11" ∈ sessions cask_history
  ∧ with_whisky "CASK 11" ∈ cask_library
  ∧ lower "Cask 11" = lower "CASK 11"
  ∧ str_in (lower (strip "cask")) (lower "Cask 11") = true
  ∧ ((λ rs, length (filter (λ r, result_name r = Some (lower "Cask 11")) rs))
       <$> search_whisky cask_history cask_library "cask") = Some 0
  ∧ str_in (lower (strip "c")) (lower "Cask 11") = true
  ∧ search_whisky cask_history cask_library "c" = Some [].
Proof.
  split; [|split; [by left|by vm_compute]].
  by apply (list_elem_of_lookup_2 _ 10).
Qed.

(** ** The handlers return on well-typed data

    No handler raises when the fields it reads as strings hold a string or
    something falsy. *)

Lemma normalise_host_total (v : value) :
  str_or_falsy v → ∃ w, normalise_host v = Some w ∧ str_or_falsy w.
Proof.
  unfold normalise_host, str_or_falsy.
  destruct v as [|b|q|s]; simpl.
  - by eauto.
  - destruct b; [done|]. by eauto.
  - intros H. destruct (Qnum q =? 0)%Z eqn:E; [|done]. simpl.
    eexists. split; [done|]. simpl. by rewrite E.
  - intros _. destruct (negb (negb (s =? ""))); by eauto.
Qed.

Lemma load_data_total (stored : data) :
  Forall (λ s, str_or_falsy (get "host" s)) (sessions stored) →
  is_Some (load_data stored).
Proof.
  intros H. unfold load_data.
  destruct (mapM_is_Some_2 load_session (sessions stored)) as [l ->];
    [|by eauto].
  eapply Forall_impl; [exact H|]. intros s Hs. simpl. unfold load_session.
  destruct (normalise_host_total _ Hs) as (w & -> & _). by eauto.
Qed.

Lemma sort_key_total (s : session) :
  str_or_falsy (get "id" s) → is_Some (sort_key s).
Proof.
  intros H. destruct (has_separator_total s H) as [[|] Hb].
  - destruct (sort_key_separator s Hb) as (k & -> & _). by eauto.
  - rewrite (sort_key_no_separator s Hb). by eauto.
Qed.

Lemma sort_sessions_total (l : list session) :
  Forall (λ s, str_or_falsy (get "id" s)) l → is_Some (sort_sessions l).
Proof.
  intros H. unfold sort_sessions.
  destruct (mapM_is_Some_2 keyed l) as [dec ->]; [|by eauto].
  eapply Forall_impl; [exact H|]. intros s Hs. simpl. unfold keyed.
  destruct (sort_key_total s Hs) as [k ->]. by eauto.
Qed.

Lemma compute_next_id_total (l : list session) :
  Forall (λ s, str_or_falsy (get "id" s)) l → is_Some (compute_next_id l).
Proof.
  intros H. destruct (filter_sessions_total l H) as [valid Hv].
  destruct (last valid) as [s|] eqn:Hlast.
  - assert (s ∈ valid) as Hin.
    { apply last_Some in Hlast as [l0 ->]. apply elem_of_app; right; by left. }
    destruct (filter_sessions_elem _ _ _ Hv s Hin) as [_ Hs].
    apply has_separator_true in Hs as (t & Ht & _ & _).
    rewrite (compute_next_id_last _ _ _ _ Hv Hlast Ht). by eauto.
  - unfold compute_next_id. rewrite Hv. simpl. rewrite Hlast. by eauto.
Qed.

Lemma load_data_str_ids (stored loaded : data) :
  load_data stored = Some loaded →
  Forall (λ s, str_or_falsy (get "id" s)) (sessions stored) →
  Forall (λ s, str_or_falsy (get "id" s)) (sessions loaded).
Proof.
  intros Hload H. apply load_data_sessions in Hload as [HF _].
  induction HF as [|s s' l l' Hs _ IH]; [done|].
  apply Forall_cons in H as [H1 H2]. constructor; [|by apply IH].
  by rewrite (load_session_get s s' "id" Hs).
Qed.

(** An add returns whenever hosts and ids are strings or falsy. *)
Lemma add_session_total (stored : data) (request : session) :
  Forall (λ s, str_or_falsy (get "host" s)) (sessions stored) →
  Forall (λ s, str_or_falsy (get "id" s)) (sessions stored) →
  str_or_falsy (get "host" request) →
  str_or_falsy (get "id" request) →
  is_Some (add_session stored request).
Proof.
  intros Hhosts Hids Hh Hi. unfold add_session.
  destruct (load_data_total stored Hhosts) as [loaded Hload].
  rewrite Hload. simpl.
  pose proof (load_data_str_ids _ _ Hload Hids) as Hids'.
  destruct (normalise_host_total _ Hh) as (h & -> & _). simpl.
  rewrite get_insert_ne by done.
  destruct (truthy (get "id" request)) eqn:Ht; simpl.
  - destruct (sort_sessions_total
                (sessions loaded ++ [<["host" := h]> request])) as [l ->];
      [|by eauto].
    apply Forall_app. split; [done|]. constructor; [|done].
    by rewrite get_insert_ne.
  - destruct (compute_next_id_total _ Hids') as [nid ->]. simpl.
    destruct (sort_sessions_total
                (sessions loaded
                 ++ [<["id" := VStr nid]> (<["host" := h]> request)]))
      as [l ->]; [|by eauto].
    apply Forall_app. split; [done|]. constructor; [|done].
    by rewrite get_insert_eq.
Qed.

(** An update returns whenever the data loads. *)
Lemma update_session_total (stored : data) (session_id : string)
    (updates : session) :
  Forall (λ s, str_or_falsy (get "host" s)) (sessions stored) →
  is_Some (update_session stored session_id updates).
Proof.
  intros H. unfold update_session.
  destruct (load_data_total stored H) as [loaded ->]. simpl.
  destruct (update_first _ _ _) as [[l s]|]; by eauto.
Qed.

Lemma enrich_one_total (lookup : string → option session) (s : session) :
  str_or_falsy (get "whisky" s) → is_Some (enrich_one lookup s).
Proof.
  unfold enrich_one, str_or_falsy. intros H.
  destruct (truthy (get "whisky" s)) eqn:Ht; simpl; [|by eauto].
  destruct (truthy (get "image_url" s) && truthy (get "rrp" s)
            && truthy (get "dm_url" s)); [by eauto|].
  destruct (get "whisky" s) as [| | |w]; simpl in *; try done;
    try (by rewrite Ht in H).
  destruct (lookup w) as [result|]; [|by eauto].
  destruct (dict_truthy result); by eauto.
Qed.

Lemma enrich_loop_total (lookup : string → option session)
    (l : list session) (e f : nat) :
  Forall (λ s, str_or_falsy (get "whisky" s)) l →
  is_Some (enrich_loop lookup l e f).
Proof.
  intros H. revert e f. induction H as [|s l Hs _ IH]; intros e f; simpl.
  - by eauto.
  - destruct (enrich_one_total lookup s Hs) as [[s' st] ->]. simpl.
    destruct (IH (match st with Enriched => S e | _ => e end)
                 (match st with Failed => S f | _ => f end))
      as [[[r e'] f'] ->].
    simpl. by eauto.
Qed.

Lemma load_data_str_whisky (stored loaded : data) :
  load_data stored = Some loaded →
  Forall (λ s, str_or_falsy (get "whisky" s)) (sessions stored) →
  Forall (λ s, str_or_falsy (get "whisky" s)) (sessions loaded).
Proof.
  intros Hload H. apply load_data_sessions in Hload as [HF _].
  induction HF as [|s s' l l' Hs _ IH]; [done|].
  apply Forall_cons in H as [H1 H2]. constructor; [|by apply IH].
  by rewrite (load_session_get s s' "whisky" Hs).
Qed.

(** A batch returns whenever hosts and whisky names are strings or
    falsy. *)
Lemma enrich_all_total (stored : data) (lookup : string → option session) :
  Forall (λ s, str_or_falsy (get "host" s)) (sessions stored) →
  Forall (λ s, str_or_falsy (get "whisky" s)) (sessions stored) →
  is_Some (enrich_all stored lookup).
Proof.
  intros Hh Hw. unfold enrich_all.
  destruct (load_data_total stored Hh) as [loaded Hload]. rewrite Hload.
  simpl.
  destruct (enrich_loop_total lookup (sessions loaded) 0 0
              (load_data_str_whisky _ _ Hload Hw)) as [[[l e] f] ->].
  simpl. by eauto.
Qed.

Lemma search_pass_total (ql : string) (whisky_of : session → value)
    (result_of : value → session → session)
    (acc : gset string * list session) (s : session) (t : string) :
  whisky_of s = VStr t →
  is_Some (search_pass ql whisky_of result_of acc s).
Proof.
  intros Ht. unfold search_pass. rewrite Ht. simpl.
  destruct (str_in ql (lower t) && negb (bool_decide (lower t ∈ acc.1)));
    by eauto.
Qed.

Lemma search_loop_total (ql : string) (whisky_of : session → value)
    (result_of : value → session → session) (l : list session)
    (acc : gset string * list session) :
  Forall (λ s, ∃ t, whisky_of s = VStr t) l →
  is_Some (for_each (search_pass ql whisky_of result_of) acc l).
Proof.
  intros H. revert acc. induction H as [|s l [t Ht] _ IH]; intros acc.
  - simpl. by eauto.
  - cbn [for_each].
    destruct (search_pass_total ql whisky_of result_of acc s t Ht) as [a ->].
    simpl. apply IH.
Qed.

(** A search returns whenever hosts and whisky names of the history are
    strings or falsy, and the whisky names of the library, when present,
    are strings. *)
Lemma search_whisky_total (stored : data) (library : list session)
    (q_arg : string) :
  Forall (λ s, str_or_falsy (get "host" s)) (sessions stored) →
  Forall (λ s, str_or_falsy (get "whisky" s)) (sessions stored) →
  Forall (λ e, ∃ t, get_or "whisky" (VStr "") e = VStr t) library →
  is_Some (search_whisky stored library q_arg).
Proof.
  intros Hh Hw Hlib. unfold search_whisky.
  destruct (String.eqb (strip q_arg) "" || Nat.ltb _ 2); [by eauto|].
  destruct (load_data_total stored Hh) as [loaded Hload]. rewrite Hload.
  simpl. unfold search_matches.
  destruct (search_loop_total (lower (strip q_arg)) local_whisky local_result
              (sessions loaded) (∅, [])) as [acc1 ->].
  { eapply Forall_impl; [exact (load_data_str_whisky _ _ Hload Hw)|].
    intros s Hs. simpl in Hs. unfold local_whisky, py_or, str_or_falsy in *.
    destruct (get "whisky" s) as [|b|q|t]; simpl in *; try by eauto.
    - destruct b; [done|by eauto].
    - destruct (Qnum q =? 0)%Z; [by eauto|done].
    - destruct (negb (t =? "")); by eauto. }
  simpl.
  destruct (search_loop_total (lower (strip q_arg)) library_whisky
              library_result library acc1 Hlib) as [acc2 ->].
  simpl. by eauto.
Qed.

(** ** Enrichment: the merge *)

Lemma enrich_one_inv (lookup : string → option session) (s s' : session)
    (st : status) :
  enrich_one lookup s = Some (s', st) →
  match st with
  | Enriched =>
      ∃ w result, get "whisky" s = VStr w ∧ lookup w = Some result
                  ∧ dict_truthy result = true ∧ s' = merge_result s result
                  ∧ eligible s = true
  | Failed => s' = s ∧ eligible s = true
             ∧ ∃ w, get "whisky" s = VStr w
                    ∧ (lookup w = None
                       ∨ ∃ result, lookup w = Some result
                                   ∧ dict_truthy result = false)
  | Skipped => s' = s ∧ eligible s = false
  end.
Proof.
  intros H. pose proof (enrich_one_status _ _ _ _ H) as He.
  unfold enrich_one in H.
  destruct (truthy (get "whisky" s)); simpl in H;
    [|by injection H as <- <-].
  destruct (truthy (get "image_url" s) && truthy (get "rrp" s)
            && truthy (get "dm_url" s)); [by injection H as <- <-|].
  destruct (get "whisky" s) as [| | |w]; try done.
  destruct (lookup w) as [result|] eqn:Hl.
  - destruct (dict_truthy result) eqn:Hd; injection H as <- <-.
    + by exists w, result.
    + split; [done|]. split; [done|]. exists w. split; [done|]. right.
      by exists result.
  - injection H as <- <-. split; [done|]. split; [done|]. exists w.
    split; [done|]. by left.
Qed.

Lemma enrich_loop_Forall2 (lookup : string → option session)
    (l r : list session) (e f e' f' : nat) :
  enrich_loop lookup l e f = Some (r, e', f') →
  Forall2 (λ s s', ∃ st, enrich_one lookup s = Some (s', st)) l r.
Proof.
  revert r e f. induction l as [|s l IH]; intros r e f H; simpl in H.
  - injection H as <- _ _. constructor.
  - destruct (enrich_one lookup s) as [[s' st]|] eqn:Hs; simpl in H; [|done].
    destruct (enrich_loop lookup l _ _) as [[[r0 e0] f0]|] eqn:Hl;
      simpl in H; [|done].
    injection H as <- <- <-. constructor; [by eauto|by eapply IH].
Qed.

Lemma enrich_all_inv (stored : data) (lookup : string → option session)
    (d' : data) (e f : nat) :
  enrich_all stored lookup = Some (d', e, f) →
  ∃ loaded,
    load_data stored = Some loaded
    ∧ enrich_loop lookup (sessions loaded) 0 0 = Some (sessions d', e, f)
    ∧ members d' = members stored.
Proof.
  unfold enrich_all.
  destruct (load_data stored) as [loaded|] eqn:Hload; simpl; [|done].
  destruct (enrich_loop lookup (sessions loaded) 0 0) as [[[l e0] f0]|] eqn:Hl;
    simpl; [|done].
  intros [= <- <- <-]. exists loaded. split; [done|]. split; [done|].
  by apply load_data_sessions in Hload as [_ ?].
Qed.

(** The loop body on an eligible record whose lookup succeeds. *)
Lemma enrich_one_merged (lookup : string → option session) (s : session)
    (w : string) (result : session) :
  eligible s = true →
  get "whisky" s = VStr w →
  lookup w = Some result →
  dict_truthy result = true →
  enrich_one lookup s = Some (merge_result s result, Enriched).
Proof.
  unfold eligible, enrich_one. intros He Hw Hl Hd.
  apply andb_true_iff in He as [H1 H2]. apply negb_true_iff in H2.
  rewrite H1, H2. simpl. by rewrite Hw, Hl, Hd.
Qed.

(** C4: on stored data whose hosts and whisky names are strings or empty
    the batch returns, and every loaded record that is eligible (a whisky
    name, and an empty [image_url], [rrp] or [dm_url]) and whose lookup
    answers with a non-empty result is saved as the merge of the result
    into the record.  [image_url] and [rrp] keep their value when it is
    non-empty and are written, from [image_url] and [price] of the result,
    only when empty; [dm_url] takes the value of the result whenever that
    one is non-empty, whatever the record held; no other field changes. *)
Theorem enrich_merge_asymmetric (stored : data)
    (lookup : string → option session) :
  Forall (λ s, str_or_falsy (get "host" s)) (sessions stored) →
  Forall (λ s, str_or_falsy (get "whisky" s)) (sessions stored) →
  ∃ d' enriched failed loaded,
    enrich_all stored lookup = Some (d', enriched, failed)
    ∧ load_data stored = Some loaded
    ∧ Forall2
        (λ s s', ∀ w result,
           eligible s = true →
           get "whisky" s = VStr w →
           lookup w = Some result →
           dict_truthy result = true →
           s' = merge_result s result
           ∧ get "image_url" s' =
               (if truthy (get "image_url" s) then get "image_url" s
                else if truthy (get "image_url" result)
                     then get "image_url" result
                     else get "image_url" s)
           ∧ get "rrp" s' =
               (if truthy (get "rrp" s) then get "rrp" s
                else if truthy (get "price" result) then get "price" result
                     else get "rrp" s)
           ∧ get "dm_url" s' =
               (if truthy (get "dm_url" result) then get "dm_url" result
                else get "dm_url" s)
           ∧ (∀ k, k ≠ "image_url" → k ≠ "rrp" → k ≠ "dm_url" →
                   s' !! k = s !! k))
        (sessions loaded) (sessions d').
Proof.
  intros Hh Hw.
  destruct (enrich_all_total stored lookup Hh Hw) as [[[d' e] f] H].
  exists d', e, f.
  destruct (enrich_all_inv _ _ _ _ _ H) as (loaded & Hload & Hl & _).
  exists loaded. split; [done|]. split; [done|].
  apply enrich_loop_Forall2 in Hl.
  eapply Forall2_impl; [exact Hl|].
  intros s s' [st Hs] w result He Hw' Hlk Hd.
  rewrite (enrich_one_merged _ _ _ _ He Hw' Hlk Hd) in Hs.
  injection Hs as <- _. split; [done|].
  split; [apply merge_result_image|]. split; [apply merge_result_rrp|].
  split; [apply merge_result_dm_url|]. apply merge_result_other.
Qed.

Lemma enrich_merge_asymmetric_witness :
  ∃ d' enriched failed loaded,
    enrich_all (Data [sample_record; with_id "I:I"] None) sample_lookup
    = Some (d', enriched, failed)
    ∧ load_data (Data [sample_record; with_id "I:I"] None) = Some loaded
    ∧ Forall2
        (λ s s', ∀ w result,
           eligible s = true →
           get "whisky" s = VStr w →
           sample_lookup w = Some result →
           dict_truthy result = true →
           s' = merge_result s result
           ∧ get "image_url" s' =
               (if truthy (get "image_url" s) then get "image_url" s
                else if truthy (get "image_url" result)
                     then get "image_url" result
                     else get "image_url" s)
           ∧ get "rrp" s' =
               (if truthy (get "rrp" s) then get "rrp" s
                else if truthy (get "price" result) then get "price" result
                     else get "rrp" s)
           ∧ get "dm_url" s' =
               (if truthy (get "dm_url" result) then get "dm_url" result
                else get "dm_url" s)
           ∧ (∀ k, k ≠ "image_url" → k ≠ "rrp" → k ≠ "dm_url" →
                   s' !! k = s !! k))
        (sessions loaded) (sessions d').
Proof.
  apply (enrich_merge_asymmetric
           (Data [sample_record; with_id "I:I"] None) sample_lookup);
    repeat constructor.
Defined.

(** The example of the specification: the image "X" of the record
    survives a lookup that returns "Y", the product link is replaced and
    the missing price is filled in. *)
Example enrich_merge_sample :
  enrich_all (Data [sample_record] None) sample_lookup
  = Some (Data [merge_result (<["host" := VNone]> sample_record)
                  sample_result] None, 1, 0)
  ∧ get "image_url" (merge_result (<["host" := VNone]> sample_record)
                       sample_result) = VStr "X"
  ∧ get "dm_url" (merge_result (<["host" := VNone]> sample_record)
                    sample_result) = VStr "new"
  ∧ get "rrp" (merge_result (<["host" := VNone]> sample_record)
                 sample_result) = VNum (8999 # 100).
Proof. vm_compute. repeat split; reflexivity. Qed.

(** ** The end-to-end scenario of the specification *)

Example create_sessions_scenario :
  ('(d1, s1) ← add_session (Data [] None)
                 (<["whisky" := VStr "Talisker 10"]>
                    {[ "host" := VStr "brass" ]});
   '(d2, s2) ← add_session d1
                 (<["whisky" := VStr "Oban 14"]> {[ "host" := VStr "Joess" ]});
   next ← next_session_id d2;
   found ← search_whisky d2 [] "talisker";
   Some (get "id" s1, get "host" s1, get "id" s2, next,
         List.map (λ r, (get "whisky" r, get "source" r)) found))
  = Some (VStr "I:I", VStr "Braas", VStr "I:II", "I:III",
          [(VStr "Talisker 10", VStr "local")]).
Proof. vm_compute. reflexivity. Qed.

(** * Further properties of the handlers *)

(** ** Tokens: encoding and decoding *)

Lemma pretty_N_char_digit (x : N) (s : string) :
  starts_decimal (String (pretty_N_char x) s) = true.
Proof. unfold pretty_N_char. by repeat case_match. Qed.

Lemma pretty_N_go_decimal (x : N) (s : string) :
  starts_decimal s = true → starts_decimal (pretty_N_go x s) = true.
Proof.
  revert s. induction (N.lt_wf_0 x) as [x _ IH]; intros s Hs.
  destruct (decide (x = 0%N)) as [->|Hx]; [by rewrite pretty_N_go_0|].
  rewrite pretty_N_go_step by lia. apply IH.
  - apply N.div_lt; lia.
  - apply pretty_N_char_digit.
Qed.

Lemma pretty_N_decimal (x : N) : starts_decimal (pretty x) = true.
Proof.
  unfold pretty, pretty_N. destruct (decide (x = 0%N)); [done|].
  rewrite pretty_N_go_step by lia. apply pretty_N_go_decimal.
  apply pretty_N_char_digit.
Qed.

Lemma pretty_Z_decimal (n : Z) : starts_decimal (pretty n) = true.
Proof.
  destruct n as [|p|p]; [done| |done].
  apply (pretty_N_decimal (Npos p)).
Qed.

Lemma roman_to_int_decimal (s : string) :
  starts_decimal s = true → roman_to_int s = 0%Z.
Proof.
  destruct s as [|c s]; [done|]. intros H.
  assert (∀ r, r ∈ ROMAN → String.eqb r (String c s) = false) as Hne.
  { intros r Hr. apply String.eqb_neq. intros ->.
    unfold ROMAN in Hr.
    repeat (apply elem_of_cons in Hr as [[= -> ->]|Hr]; [by vm_compute in H|]).
    by apply elem_of_nil in Hr. }
  unfold roman_to_int.
  assert (index_of (String c s) ROMAN = None) as ->; [|done].
  revert Hne. generalize ROMAN. intros l. induction l as [|r l IH]; [done|].
  intros Hne. simpl. rewrite (Hne r) by by left.
  rewrite IH; [done|]. intros r' Hr'. apply Hne. by right.
Qed.

(** X1: decoding the encoding of [n] gives [n] back for [n] from 1 to 12;
    outside that range the encoding is the decimal rendering, which
    decodes to 0, the value of an unknown token. *)
Theorem roman_to_int_int_to_roman (n : Z) :
  roman_to_int (int_to_roman n) =
  if (Z.leb 1 n && Z.leb n 12)%Z then n else 0%Z.
Proof.
  destruct (Z.leb 1 n && Z.leb n 12)%Z eqn:E.
  - assert (n = 1 ∨ n = 2 ∨ n = 3 ∨ n = 4 ∨ n = 5 ∨ n = 6 ∨ n = 7 ∨ n = 8
            ∨ n = 9 ∨ n = 10 ∨ n = 11 ∨ n = 12)%Z as Hn by lia.
    destruct_or! Hn; subst; by vm_compute.
  - unfold int_to_roman. change (Z.of_nat (length ROMAN)) with 12%Z.
    rewrite E. apply roman_to_int_decimal, pretty_Z_decimal.
Qed.

(** X2: a token that decodes to a non-zero value is the encoding of that
    value, and the value is between 1 and 12: the twelve symbols and the
    numbers 1..12 are in one-to-one correspondence. *)
Theorem int_to_roman_roman_to_int (r : string) :
  roman_to_int r ≠ 0%Z →
  int_to_roman (roman_to_int r) = r ∧ (1 ≤ roman_to_int r ≤ 12)%Z.
Proof.
  intros H. split; [by apply int_to_roman_to_int|].
  pose proof (roman_to_int_range r). lia.
Qed.

Lemma int_to_roman_roman_to_int_witness :
  int_to_roman (roman_to_int "IX") = "IX" ∧ (1 ≤ roman_to_int "IX" ≤ 12)%Z.
Proof. apply int_to_roman_roman_to_int. vm_compute. discriminate. Defined.

Lemma str_in_colon_app (a b : string) : str_in ":" (a +:+ ":" +:+ b) = true.
Proof.
  induction a as [|c a IH]; [by destruct b|].
  change (str_in ":" (String c a +:+ ":" +:+ b))
    with (String.prefix ":" (String c (a +:+ ":" +:+ b))
          || str_in ":" (a +:+ ":" +:+ b)).
  rewrite IH. apply orb_true_r.
Qed.

(** X3: over a registry whose ids are strings or empty the allocation
    always returns an id; the id contains the separator, and it is either
    "13:I", the overflow of round XII, or a fully valid id with an ordinal
    between 1 and 7. *)
Theorem compute_next_id_shape (l : list session) :
  Forall (λ s, str_or_falsy (get "id" s)) l →
  ∃ nid, compute_next_id l = Some nid
       ∧ str_in ":" nid = true
       ∧ (nid = "13:I"
          ∨ ∃ p, decode_id nid = Some p
                 ∧ (1 ≤ p.1 ≤ 12)%Z ∧ (1 ≤ p.2 ≤ 7)%Z).
Proof.
  intros H. destruct (filter_sessions_total l H) as [valid Hv].
  assert (∀ p0 : Z * Z, (1 ≤ p0.1 ≤ 12)%Z → (1 ≤ p0.2 ≤ 12)%Z →
            render (successor members_per_round p0) = "13:I"
            ∨ ∃ p, decode_id (render (successor members_per_round p0)) = Some p
                   ∧ (1 ≤ p.1 ≤ 12)%Z ∧ (1 ≤ p.2 ≤ 7)%Z) as Hsucc.
  { intros [r0 s0] Hr Hs. unfold successor, members_per_round. simpl in *.
    destruct (Z.leb_spec 7 s0).
    - destruct (decide (r0 = 12%Z)) as [->|]; [by left|]. right.
      exists (r0 + 1, 1)%Z. rewrite decode_render by lia.
      split; [done|]. simpl. lia.
    - right. exists (r0, s0 + 1)%Z. rewrite decode_render by lia.
      split; [done|]. simpl. lia. }
  destruct (last valid) as [s|] eqn:Hlast.
  - assert (s ∈ valid) as Hin.
    { apply last_Some in Hlast as [l0 ->]. apply elem_of_app; right; by left. }
    destruct (filter_sessions_elem _ _ _ Hv s Hin) as [_ Hs].
    apply has_separator_true in Hs as (t & Ht & _ & _).
    rewrite (compute_next_id_last _ _ _ _ Hv Hlast Ht).
    eexists. split; [done|].
    destruct (decode_id t) as [p0|] eqn:Hd.
    + destruct (decode_id_range _ _ Hd) as [Hr Hs].
      split; [apply str_in_colon_app|]. by apply Hsucc.
    + split; [done|]. right. exists (1, 1)%Z. split; [done|]. simpl. lia.
  - unfold compute_next_id. rewrite Hv. simpl. rewrite Hlast.
    eexists. split; [done|]. split; [done|].
    right. exists (1, 1)%Z. split; [done|]. simpl. lia.
Qed.

Lemma compute_next_id_shape_witness :
  ∃ nid, compute_next_id [with_id "XII:VII"; with_id "draft"] = Some nid
       ∧ str_in ":" nid = true
       ∧ (nid = "13:I"
          ∨ ∃ p, decode_id nid = Some p
                 ∧ (1 ≤ p.1 ≤ 12)%Z ∧ (1 ≤ p.2 ≤ 7)%Z).
Proof. apply compute_next_id_shape. repeat constructor. Defined.

(** ** Host names: what the alias table does *)

Lemma rstrip_no_trailing_space (s : string) : ends_with_space (rstrip s) = false.
Proof.
  induction s as [|c s IH]; [done|]. simpl.
  destruct (rstrip s) as [|d t] eqn:E.
  - by destruct (isspace c) eqn:Hc; simpl.
  - done.
Qed.

Lemma isspace_lower_char (c : ascii) : isspace (lower_char c) = isspace c.
Proof. by destruct c as [[] [] [] [] [] [] [] []]. Qed.

Lemma lower_ends_with_space (s : string) :
  ends_with_space (lower s) = ends_with_space s.
Proof.
  induction s as [|c s IH]; [done|].
  destruct s as [|d t]; simpl in *; [apply isspace_lower_char|done].
Qed.

Lemma key_no_trailing_space (s : string) :
  ends_with_space (lower (strip s)) = false.
Proof.
  rewrite lower_ends_with_space. apply rstrip_no_trailing_space.
Qed.

Lemma alias_keys_dead (s : string) :
  lower (strip s) ≠ "willie " ∧ lower (strip s) ≠ "fiddy ".
Proof.
  pose proof (key_no_trailing_space s) as H.
  split; intros E; by rewrite E in H.
Qed.

Lemma HOST_ALIASES_lookup (k : string) :
  HOST_ALIASES !! k =
  if String.eqb k "brass" || String.eqb k "braas" then Some "Braas"
  else if String.eqb k "willie" || String.eqb k "willie "
          || String.eqb k "joess"
       then Some "Joess"
       else if String.eqb k "fiddy " then Some "Fiddy" else None.
Proof.
  destruct (String.eqb_spec k "brass") as [->|H1]; [done|].
  destruct (String.eqb_spec k "braas") as [->|H2]; [done|].
  destruct (String.eqb_spec k "willie") as [->|H3]; [done|].
  destruct (String.eqb_spec k "willie ") as [->|H4]; [done|].
  destruct (String.eqb_spec k "joess") as [->|H5]; [done|].
  destruct (String.eqb_spec k "fiddy ") as [->|H6]; [done|].
  simpl. apply not_elem_of_list_to_map_1. unfold HOST_ALIASES_items. simpl.
  intros H. repeat (apply elem_of_cons in H as [->|H]; [done|]).
  by apply elem_of_nil in H.
Qed.

(** X4: a key of the alias table that ends with white space, as
    "willie " and "fiddy " do, takes no part in the normalisation, since
    the lookup key is trimmed: [normalise_host] gives every non-empty name
    what the table without that entry gives.  In particular no name is
    mapped to "Fiddy": a name is normalised to "Fiddy" only when it is
    "Fiddy" after trimming. *)
Theorem alias_keys_with_space_unreachable (k s : string) :
  ends_with_space k = true →
  s ≠ "" →
  normalise_host (VStr s)
  = Some (VStr (default (strip s)
                  (delete k HOST_ALIASES !! lower (strip s))))
  ∧ (normalise_host (VStr s) = Some (VStr "Fiddy") → strip s = "Fiddy").
Proof.
  intros Hk Hs.
  assert (lower (strip s) ≠ k) as Hne.
  { intros <-. by rewrite key_no_trailing_space in Hk. }
  unfold normalise_host. simpl.
  destruct (String.eqb_spec s ""); [done|]. simpl.
  split; [by rewrite lookup_delete_ne|].
  rewrite HOST_ALIASES_lookup.
  destruct (alias_keys_dead s) as [H1 H2].
  apply String.eqb_neq in H1, H2. rewrite H1, H2.
  destruct (String.eqb (lower (strip s)) "brass"
            || String.eqb (lower (strip s)) "braas"); [done|].
  rewrite orb_false_r.
  destruct (String.eqb (lower (strip s)) "willie"
            || String.eqb (lower (strip s)) "joess"); [done|].
  simpl. by intros [= ->].
Qed.

Lemma alias_keys_with_space_unreachable_witness :
  normalise_host (VStr "fiddy ")
  = Some (VStr (default (strip "fiddy ")
                  (delete "fiddy " HOST_ALIASES !! lower (strip "fiddy "))))
  ∧ (normalise_host (VStr "fiddy ") = Some (VStr "Fiddy") →
     strip "fiddy " = "Fiddy").
Proof.
  apply (alias_keys_with_space_unreachable "fiddy " "fiddy ");
    [reflexivity|discriminate].
Defined.

(** X5: a non-empty name is normalised to "Braas" when its trimmed,
    lower-cased form is "brass" or "braas", to "Joess" when it is "willie"
    or "joess", and to the trimmed name, case preserved, otherwise; so
    "Fiddy " becomes "Fiddy" and "fiddy" stays "fiddy". *)
Theorem normalise_host_table (s : string) :
  s ≠ "" →
  normalise_host (VStr s) =
  Some (VStr (if String.eqb (lower (strip s)) "brass"
                 || String.eqb (lower (strip s)) "braas" then "Braas"
              else if String.eqb (lower (strip s)) "willie"
                      || String.eqb (lower (strip s)) "joess" then "Joess"
                   else strip s)).
Proof.
  intros Hs. unfold normalise_host. simpl.
  destruct (String.eqb_spec s ""); [done|]. simpl.
  rewrite HOST_ALIASES_lookup.
  destruct (alias_keys_dead s) as [H1 H2].
  apply String.eqb_neq in H1, H2. rewrite H1, H2.
  destruct (String.eqb (lower (strip s)) "brass"
            || String.eqb (lower (strip s)) "braas"); [done|].
  rewrite orb_false_r.
  by destruct (String.eqb (lower (strip s)) "willie"
               || String.eqb (lower (strip s)) "joess").
Qed.

Lemma normalise_host_table_witness :
  normalise_host (VStr " WiLLie ") = Some (VStr "Joess")
  ∧ normalise_host (VStr "fiddy ") = Some (VStr "fiddy").
Proof.
  split.
  - exact (normalise_host_table " WiLLie " ltac:(discriminate)).
  - exact (normalise_host_table "fiddy " ltac:(discriminate)).
Defined.

(** X6: a normalised name has no white space at either end. *)
Theorem normalise_host_trimmed (s t : string) :
  normalise_host (VStr s) = Some (VStr t) → strip t = t.
Proof.
  unfold normalise_host. simpl.
  destruct (String.eqb_spec s "") as [->|Hs]; simpl; [by intros [= <-]|].
  intros [= <-].
  destruct (HOST_ALIASES !! lower (strip s)) as [c|] eqn:Hc; simpl.
  - apply elem_of_list_to_map_2 in Hc. unfold HOST_ALIASES_items in Hc.
    repeat (apply elem_of_cons in Hc as [[= _ ->]|Hc]; [done|]).
    by apply elem_of_nil in Hc.
  - apply strip_idem.
Qed.

Lemma normalise_host_trimmed_witness : strip "Dram Master" = "Dram Master".
Proof. apply (normalise_host_trimmed "  Dram Master "). reflexivity. Defined.

(** ** Loading and adding: what the storage holds *)

Lemma load_session_fixed (s s' : session) :
  load_session s = Some s' → load_session s' = Some s'.
Proof.
  unfold load_session.
  destruct (normalise_host (get "host" s)) as [h|] eqn:Hh; [|done].
  intros [= <-]. rewrite get_insert_eq.
  rewrite (normalise_host_fixed _ _ Hh). simpl.
  by rewrite insert_insert_eq.
Qed.

Lemma mapM_load_session_fixed (l : list session) :
  Forall (λ s, load_session s = Some s) l → mapM load_session l = Some l.
Proof.
  intros H. apply mapM_Some_2.
  induction H as [|s l Hs _ IH]; by constructor.
Qed.

Lemma load_data_fixed (stored loaded : data) :
  load_data stored = Some loaded →
  Forall (λ s, load_session s = Some s) (sessions loaded).
Proof.
  intros H. apply load_data_sessions in H as [H _].
  induction H as [|s s' l l' Hs _ IH]; constructor; [|done].
  by apply (load_session_fixed s).
Qed.

Lemma load_data_of_fixed (d : data) :
  Forall (λ s, load_session s = Some s) (sessions d) → load_data d = Some d.
Proof.
  intros H. unfold load_data. rewrite (mapM_load_session_fixed _ H).
  simpl. by destruct d.
Qed.

(** X7: loading is idempotent: data that was loaded loads to itself.  A
    load keeps the number and the order of the records and changes no
    field but [host]. *)
Theorem load_data_idempotent (stored loaded : data) :
  load_data stored = Some loaded →
  load_data loaded = Some loaded
  ∧ members loaded = members stored
  ∧ Forall2 (λ s s', ∀ k, k ≠ "host" → s' !! k = s !! k)
            (sessions stored) (sessions loaded).
Proof.
  intros H. split; [|split].
  - apply load_data_of_fixed. by apply (load_data_fixed stored).
  - by apply load_data_sessions in H as [_ ?].
  - apply load_data_sessions in H as [H _].
    eapply Forall2_impl; [exact H|]. intros s s' Hs k Hk. simpl in Hs.
    unfold load_session in Hs.
    destruct (normalise_host (get "host" s)); [|done].
    injection Hs as <-. by rewrite lookup_insert_ne.
Qed.

Lemma load_data_idempotent_witness :
  load_data (Data [<["host" := VStr "Braas"]> (with_id "I:I")] None)
  = Some (Data [<["host" := VStr "Braas"]> (with_id "I:I")] None).
Proof.
  refine (proj1 (load_data_idempotent
                   (Data [<["host" := VStr " brass"]> (with_id "I:I")] None)
                   (Data [<["host" := VStr "Braas"]> (with_id "I:I")] None) _)).
  vm_compute. reflexivity.
Defined.








(** ** Adding: where the new record goes *)

Lemma filter_keyed (k : Z * Z) (d : list ((Z * Z) * session)) :
  Forall (λ p, sort_key p.2 = Some p.1) d →
  filter (λ s, sort_key s = Some k) (d.*2) = (filter (λ p, p.1 = k) d).*2.
Proof.
  induction 1 as [|p d Hp _ IH]; [done|].
  rewrite fmap_cons, !filter_cons, IH, Hp.
  destruct (decide (p.1 = k)) as [->|Hne].
  - by rewrite decide_True.
  - rewrite decide_False; [done|]. by intros [= ?].
Qed.

Lemma sort_sessions_stable (l l' : list session) (k : Z * Z) :
  sort_sessions l = Some l' →
  filter (λ s, sort_key s = Some k) l' = filter (λ s, sort_key s = Some k) l.
Proof.
  unfold sort_sessions. destruct (mapM keyed l) as [dec|] eqn:E; [|done].
  intros [= <-]. apply mapM_keyed in E as [E1 E2].
  rewrite <- E1, !filter_keyed, sort_by_key_stable; [done|done|].
  by rewrite sort_by_key_perm.
Qed.

(** X9: the sort of an add is stable: the records of one sort key keep
    the order they had in the loaded registry, and the new record comes
    after the stored records that share its key. *)
Theorem add_session_stable (stored : data) (request : session) (d' : data)
    (r : session) (k : Z * Z) :
  add_session stored request = Some (d', r) →
  ∃ loaded,
    load_data stored = Some loaded
    ∧ filter (λ s, sort_key s = Some k) (sessions d')
      = filter (λ s, sort_key s = Some k) (sessions loaded) ++
        filter (λ s, sort_key s = Some k) [r].
Proof.
  intros H. apply add_session_inv in H as (loaded & h & Hl & _ & _ & Hs & _).
  exists loaded. split; [done|].
  by rewrite (sort_sessions_stable _ _ k Hs), filter_app.
Qed.

Lemma add_session_stable_witness :
  ∃ loaded,
    load_data (Data [stored_id "I:I"; stored_id "draft"] None) = Some loaded
    ∧ filter (λ s, sort_key s = Some (999, 999)%Z)
        [stored_id "I:I"; stored_id "draft"; stored_id "notes"]
      = filter (λ s, sort_key s = Some (999, 999)%Z) (sessions loaded) ++
        filter (λ s, sort_key s = Some (999, 999)%Z) [stored_id "notes"].
Proof.
  refine (add_session_stable (Data [stored_id "I:I"; stored_id "draft"] None)
            (with_id "notes")
            (Data [stored_id "I:I"; stored_id "draft"; stored_id "notes"] None)
            (stored_id "notes") (999, 999)%Z _).
  vm_compute. reflexivity.
Defined.

Lemma insert_by_key_head x l :
  Forall (λ y, key_le x.1 y.1) l → insert_by_key x l = x :: l.
Proof.
  intros H. destruct l as [|y l]; [done|].
  apply Forall_cons in H as [H _]. simpl.
  by destruct (key_le x.1 y.1).
Qed.

(** Sorting a sorted list followed by one more element puts the element
    after the elements whose key is not above its key. *)
Lemma foldr_insert_sorted x l :
  StronglySorted (λ p q, key_le p.1 q.1) l →
  ∃ l1 l2, l = l1 ++ l2
         ∧ foldr insert_by_key [x] l = l1 ++ x :: l2
         ∧ Forall (λ y, key_le y.1 x.1) l1
         ∧ Forall (λ y, key_le y.1 x.1 = false) l2.
Proof.
  induction 1 as [|y l Hs IH Hy].
  - by exists [], [].
  - destruct IH as (l1 & l2 & -> & Hf & H1 & H2). simpl. rewrite Hf.
    destruct l1 as [|z l1].
    + simpl in *. destruct (key_le y.1 x.1) eqn:E.
      * exists [y], l2. repeat split; try done.
        constructor; [by rewrite E|done].
      * exists [], (y :: l2). simpl.
        rewrite (insert_by_key_head y l2 Hy). repeat split; try done.
        by constructor.
    + apply Forall_cons in H1 as [Hz H1].
      pose proof Hy as Hy'. apply Forall_cons in Hy' as [Hyz _].
      exists (y :: z :: l1), l2. simpl.
      destruct (key_le y.1 z.1) eqn:E; [|done]. repeat split; try done.
      constructor; [|by constructor].
      apply (key_le_trans _ z.1); [by rewrite E|done].
Qed.

Lemma sort_by_key_snoc x l :
  sort_by_key (l ++ [x]) = foldr insert_by_key [x] l.
Proof. unfold sort_by_key. by rewrite foldr_snoc. Qed.

Lemma keyed_sorted (l : list session) dec :
  mapM keyed l = Some dec →
  StronglySorted session_le l →
  StronglySorted (λ p q, key_le p.1 q.1) dec.
Proof.
  intros H Hs. apply mapM_keyed in H as [<- Hk].
  induction dec as [|p dec IH]; [constructor|].
  apply Forall_cons in Hk as [Hp Hk]. rewrite fmap_cons in Hs.
  apply StronglySorted_cons in Hs as [Hall Hs].
  constructor; [by apply IH|].
  rewrite Forall_fmap in Hall. rewrite Forall_forall in Hall, Hk.
  apply Forall_forall. intros q Hq. specialize (Hall q Hq). simpl in Hall.
  unfold session_le in Hall. by rewrite Hp, (Hk q Hq) in Hall.
Qed.

(** X10: over a registry stored in sorted order an add leaves the stored
    records in their order and puts the new record between them: after
    every record whose key is not above its key, before the others. *)
Theorem add_session_position (stored : data) (request : session) (d' : data)
    (r : session) :
  add_session stored request = Some (d', r) →
  StronglySorted session_le (sessions stored) →
  ∃ loaded l1 l2,
    load_data stored = Some loaded
    ∧ sessions loaded = l1 ++ l2
    ∧ sessions d' = l1 ++ r :: l2
    ∧ Forall (λ s, session_le s r) l1
    ∧ Forall (λ s, ¬ session_le s r) l2.
Proof.
  intros H Hsorted.
  apply add_session_inv in H as (loaded & h & Hl & _ & _ & Hs & _).
  pose proof (load_data_ids _ _ Hl) as Hids. symmetry in Hids.
  pose proof (StronglySorted_ids _ _ Hids Hsorted) as Hsl.
  unfold sort_sessions in Hs.
  destruct (mapM keyed (sessions loaded ++ [r])) as [dec|] eqn:E; [|done].
  injection Hs as Hs.
  pose proof (mapM_keyed _ _ E) as [_ Hkeys].
  apply mapM_Some_1, Forall2_app_inv_l in E as (dl & dr & Hdl & Hdr & ->).
  apply Forall2_cons_inv_l in Hdr as (x & dr' & Hx & Hnil & ->).
  apply Forall2_nil_inv_l in Hnil as ->.
  apply mapM_Some_2 in Hdl.
  pose proof (keyed_sorted _ _ Hdl Hsl) as Hdls.
  apply mapM_keyed in Hdl as [Hdl2 _].
  destruct (foldr_insert_sorted x dl Hdls) as (d1 & d2 & -> & Hf & H1 & H2).
  rewrite sort_by_key_snoc, Hf in Hs.
  unfold keyed in Hx. destruct (sort_key r) as [kr|] eqn:Hkr; [|done].
  injection Hx as <-.
  apply Forall_app in Hkeys as [Hkeys _]. apply Forall_app in Hkeys as [Hk1 Hk2].
  exists loaded, (d1.*2), (d2.*2). split; [done|].
  split; [by rewrite <- Hdl2, fmap_app|].
  split; [by rewrite <- Hs, fmap_app|]. split.
  - rewrite Forall_fmap. rewrite Forall_forall in H1, Hk1.
    apply Forall_forall. intros p Hp. simpl. unfold session_le.
    rewrite (Hk1 p Hp), Hkr. by apply H1.
  - rewrite Forall_fmap. rewrite Forall_forall in H2, Hk2.
    apply Forall_forall. intros p Hp. simpl. unfold session_le.
    rewrite (Hk2 p Hp), Hkr. pose proof (H2 p Hp) as E. simpl in E.
    rewrite E. by intros [].
Qed.

Lemma add_session_position_witness :
  ∃ loaded l1 l2,
    load_data (Data [stored_id "I:I"; stored_id "II:I"] None) = Some loaded
    ∧ sessions loaded = l1 ++ l2
    ∧ [stored_id "I:I"; stored_id "I:II"; stored_id "II:I"]
      = l1 ++ stored_id "I:II" :: l2
    ∧ Forall (λ s, session_le s (stored_id "I:II")) l1
    ∧ Forall (λ s, ¬ session_le s (stored_id "I:II")) l2.
Proof.
  refine (add_session_position
            (Data [stored_id "I:I"; stored_id "II:I"] None) (with_id "I:II")
            (Data [stored_id "I:I"; stored_id "I:II"; stored_id "II:I"] None)
            (stored_id "I:II") _ _).
  - vm_compute. reflexivity.
  - repeat constructor; vm_compute; exact I.
Defined.

(** ** Updating: round trip and idempotence *)

Lemma update_first_inv (sid : string) (upd : session) (l l' : list session)
    (x : session) :
  update_first sid upd l = Some (l', x) →
  ∃ i s, l !! i = Some s
       ∧ get "id" s = VStr sid
       ∧ (∀ j y, j < i → l !! j = Some y → get "id" y ≠ VStr sid)
       ∧ l' = <[i := upd ∪ s]> l
       ∧ x = upd ∪ s.
Proof.
  revert l'. induction l as [|y l IH]; intros l' H; [done|]. simpl in H.
  destruct (py_eq_str (get "id" y) sid) eqn:E.
  - injection H as <- <-. apply py_eq_str_true in E.
    exists 0, y. repeat split; try done. intros j z Hj. lia.
  - destruct (update_first sid upd l) as [[l'' x']|]; simpl in H; [|done].
    injection H as <- <-.
    destruct (IH l'' eq_refl) as (i & s & Hi & Hs & Hb & -> & ->).
    exists (S i), s. repeat split; try done.
    intros [|j] z Hj Hz; simpl in Hz.
    + injection Hz as <-. intros Heq. apply py_eq_str_true in Heq. congruence.
    + apply (Hb j z); [lia|done].
Qed.



Lemma load_session_host (s : session) :
  load_session s = Some s →
  normalise_host (get "host" s) = Some (get "host" s)
  ∧ s !! "host" = Some (get "host" s).
Proof.
  unfold load_session.
  destruct (normalise_host (get "host" s)) as [h|] eqn:Hh; [|done].
  intros [= E].
  assert (s !! "host" = Some h) as Hs by by rewrite <- E, lookup_insert_eq.
  unfold get in *. rewrite Hs in *. by simpl in *.
Qed.

(** X12: an update is idempotent.  When the patch leaves the id alone, or
    sets it to the id it is addressed to, and its host, if any, is a
    string or empty, the same update on the saved data finds the same
    record, answers the same and saves the same data. *)
Theorem update_session_idempotent (stored : data) (session_id : string)
    (updates : session) (d' : data) (x : session) :
  update_session stored session_id updates = Some (d', Updated x) →
  updates !! "id" = None ∨ updates !! "id" = Some (VStr session_id) →
  str_or_falsy (get "host" updates) →
  update_session d' session_id updates = Some (d', Updated x).
Proof.
  intros H Hid Hhost. unfold update_session in H.
  destruct (load_data stored) as [loaded|] eqn:Hload; simpl in H; [|done].
  destruct (update_first session_id updates (sessions loaded))
    as [[l x']|] eqn:Hu; [|done].
  injection H as <- <-.
  apply update_first_inv in Hu as (i & s & Hi & Hs & Hbefore & -> & ->).
  pose proof (load_data_fixed _ _ Hload) as Hfix.
  assert (load_session s = Some s) as Hsfix.
  { rewrite Forall_forall in Hfix. apply Hfix.
    by eapply list_elem_of_lookup_2. }
  destruct (load_session_host s Hsfix) as [Hnorm Hshost].
  assert (get "id" (updates ∪ s) = VStr session_id) as Hxid.
  { destruct Hid as [Hid|Hid].
    - by rewrite get_union_r.
    - unfold get. by rewrite (lookup_union_Some_l _ _ _ _ Hid). }
  assert (∃ h', normalise_host (get "host" (updates ∪ s)) = Some h'
                ∧ updates ∪ <["host" := h']> (updates ∪ s) = updates ∪ s)
    as (h' & Hh' & Hsame).
  { destruct (updates !! "host") as [v|] eqn:Hv.
    - assert (get "host" (updates ∪ s) = v) as ->.
      { unfold get. by rewrite (lookup_union_Some_l _ _ _ _ Hv). }
      assert (get "host" updates = v) as Hgv by (unfold get; by rewrite Hv).
      rewrite Hgv in Hhost.
      destruct (normalise_host_total v Hhost) as (h' & Hh' & _).
      exists h'. split; [done|]. apply map_eq. intros k.
      rewrite !lookup_union.
      destruct (updates !! k) as [w|] eqn:Hk; simpl.
      + by destruct (<["host":=h']> (updates ∪ s) !! k), (s !! k).
      + assert (k ≠ "host") as Hne by congruence.
        rewrite lookup_insert_ne, lookup_union, Hk by done.
        by destruct (s !! k).
    - rewrite get_union_r by done. exists (get "host" s). split; [done|].
      rewrite insert_id by (by rewrite lookup_union_r).
      apply map_eq. intros k. rewrite !lookup_union.
      by destruct (updates !! k), (s !! k). }
  unfold update_session.
  set (L := sessions loaded) in *.
  assert (load_data (with_sessions loaded (<[i := updates ∪ s]> L))
          = Some (with_sessions loaded
                    (<[i := <["host" := h']> (updates ∪ s)]> L))) as ->.
  { unfold load_data. simpl.
    assert (mapM load_session (<[i := updates ∪ s]> L)
            = Some (<[i := <["host" := h']> (updates ∪ s)]> L)) as ->; [|done].
    apply mapM_Some_2, Forall2_insert.
    - clear -Hfix. induction Hfix; by constructor.
    - unfold load_session. by rewrite Hh'. }
  simpl.
  rewrite (update_first_Some session_id updates _ i
             (<["host" := h']> (updates ∪ s))).
  - simpl. rewrite Hsame, list_insert_insert_eq. done.
  - apply list_lookup_insert_eq. by apply lookup_lt_Some in Hi.
  - by rewrite get_insert_ne.
  - intros j y Hj Hy. rewrite list_lookup_insert_ne in Hy by lia.
    by apply (Hbefore j y).
Qed.

Lemma update_session_idempotent_witness :
  update_session
    (Data [<["region" := VStr "Islay"]> (stored_id "I:I")] None) "I:I"
    {[ "region" := VStr "Islay" ]}
  = Some (Data [<["region" := VStr "Islay"]> (stored_id "I:I")] None,
          Updated (<["region" := VStr "Islay"]> (stored_id "I:I"))).
Proof.
  refine (update_session_idempotent (Data [stored_id "I:I"] None) "I:I"
            {[ "region" := VStr "Islay" ]} _ _ _ _ _).
  - vm_compute. reflexivity.
  - by left.
  - reflexivity.
Defined.

(** ** Listing *)

Lemma load_session_listed (s s' : session) :
  load_session s = Some s' →
  truthy (get "whisky" s') || truthy (get "host" s') = listed s.
Proof.
  intros H. rewrite (load_session_get s s' "whisky" H) by done.
  unfold listed. f_equal.
  unfold load_session in H.
  destruct (normalise_host (get "host" s)) as [h|] eqn:Hh; [|done].
  simpl in H. injection H as <-. rewrite get_insert_eq.
  unfold normalise_host in Hh.
  destruct (get "host" s) as [|b|q|t]; simpl in Hh.
  - by injection Hh as <-.
  - destruct b; [done|]. by injection Hh as <-.
  - destruct (Qnum q =? 0)%Z eqn:E; [|done]. injection Hh as <-.
    simpl. by rewrite E.
  - destruct (String.eqb_spec t "") as [E|Ht]; simpl in Hh;
      injection Hh as <-; [by rewrite E|]. simpl. f_equal.
    destruct (String.eqb_spec (strip t) "") as [E|E].
    + by rewrite E.
    + destruct (HOST_ALIASES !! lower (strip t)) as [c|] eqn:Hc; simpl.
      * apply elem_of_list_to_map_2 in Hc. unfold HOST_ALIASES_items in Hc.
        repeat (apply elem_of_cons in Hc as [[= _ ->]|Hc]; [done|]).
        by apply elem_of_nil in Hc.
      * by apply String.eqb_neq.
Qed.

(** X13: whenever the data loads the listing answers, with the stored
    records, in their order and each with its host normalised, that have a
    non-empty whisky or a host with a character that is not white space:
    the filter sees the normalised host, so a stored record without whisky
    whose host is only white space is left out.  The member list is passed
    on. *)
Theorem get_data_listing (stored loaded : data) :
  load_data stored = Some loaded →
  ∃ l, mapM load_session (filter (λ s, listed s) (sessions stored)) = Some l
       ∧ get_data stored = Some (Data l (members stored)).
Proof.
  intros Hload. unfold get_data. rewrite Hload. simpl.
  apply load_data_sessions in Hload as [HF Hm].
  exists (filter (λ s, truthy (get "whisky" s) || truthy (get "host" s))
            (sessions loaded)).
  split; [|unfold with_sessions; by rewrite Hm].
  induction HF as [|s s' l l' Hs _ IH]; [done|].
  rewrite !filter_cons, <- (load_session_listed s s' Hs).
  destruct (decide _) as [?|?]; [|exact IH].
  simpl. rewrite Hs. simpl. by rewrite IH.
Qed.

Lemma get_data_listing_witness :
  ∃ l, mapM load_session
         (filter (λ s, listed s)
            [<["host" := VStr "  "]> (with_id "I:I"); with_whisky "Oban 14";
             with_whisky "Oban 14"]) = Some l
       ∧ get_data (Data [<["host" := VStr "  "]> (with_id "I:I");
                         with_whisky "Oban 14"; with_whisky "Oban 14"] None)
         = Some (Data l None).
Proof.
  apply (get_data_listing
           (Data [<["host" := VStr "  "]> (with_id "I:I");
                  with_whisky "Oban 14"; with_whisky "Oban 14"] None)
           (Data [<["host" := VStr ""]> (with_id "I:I");
                  <["host" := VNone]> (with_whisky "Oban 14");
                  <["host" := VNone]> (with_whisky "Oban 14")] None)).
  vm_compute. reflexivity.
Defined.

(** ** The preview of the next session *)

Lemma string_leb_trans (a b c : string) :
  String.leb a b = true → String.leb b c = true → String.leb a c = true.
Proof.
  unfold String.leb. revert b c.
  induction a as [|x a IH]; intros [|y b] [|z c]; simpl; try done.
  unfold Ascii.compare.
  destruct (N.compare_spec (N_of_ascii x) (N_of_ascii y)),
    (N.compare_spec (N_of_ascii y) (N_of_ascii z)),
    (N.compare_spec (N_of_ascii x) (N_of_ascii z));
    try done; try lia.
  apply IH.
Qed.

Lemma insert_str_perm x l : insert_str x l ≡ₚ x :: l.
Proof.
  induction l as [|y l IH]; simpl; [done|].
  destruct (String.leb x y); [done|]. rewrite IH. apply Permutation_swap.
Qed.

Lemma sorted_strings_perm l : sorted_strings l ≡ₚ l.
Proof.
  induction l as [|x l IH]; simpl; [done|].
  by rewrite insert_str_perm, IH.
Qed.

Lemma insert_str_sorted x l :
  StronglySorted (λ a b, String.leb a b = true) l →
  StronglySorted (λ a b, String.leb a b = true) (insert_str x l).
Proof.
  induction 1 as [|y l Hs IH Hy]; simpl.
  - repeat constructor.
  - destruct (String.leb x y) eqn:E.
    + constructor; [by constructor|]. constructor; [done|].
      eapply Forall_impl; [exact Hy|]. intros z Hz. simpl in Hz.
      by apply (string_leb_trans _ y).
    + constructor; [done|]. rewrite insert_str_perm.
      constructor; [|done]. by destruct (String.leb_total x y); [congruence|].
Qed.

Lemma sorted_strings_sorted l :
  StronglySorted (λ a b, String.leb a b = true) (sorted_strings l).
Proof.
  induction l as [|x l IH]; simpl; [constructor|]. by apply insert_str_sorted.
Qed.

Lemma normalise_host_truthy_fixed (v : value) :
  truthy v = true → normalise_host v = Some v → ∃ t, v = VStr t ∧ t ≠ "".
Proof.
  intros Ht H. unfold normalise_host in H. rewrite Ht in H. simpl in H.
  destruct v as [|b|q|t]; try done.
  exists t. split; [done|]. by intros ->.
Qed.

Lemma session_hosts_spec (l : list session) (hosts : list string) :
  Forall (λ s, load_session s = Some s) l →
  session_hosts l = Some hosts →
  StronglySorted (λ a b, String.leb a b = true) hosts
  ∧ NoDup hosts
  ∧ ∀ h, h ∈ hosts ↔ h ≠ "" ∧ ∃ s, s ∈ l ∧ get "host" s = VStr h.
Proof.
  intros Hfix H. unfold session_hosts in H.
  destruct (mapM _ _) as [names|] eqn:E; simpl in H; [|done].
  injection H as <-. split; [apply sorted_strings_sorted|].
  split; [rewrite sorted_strings_perm; apply NoDup_remove_dups|].
  intros h. rewrite sorted_strings_perm, elem_of_remove_dups.
  apply mapM_Some_1 in E. rewrite Forall_forall in Hfix. split.
  - intros Hh. apply list_elem_of_lookup in Hh as [i Hi].
    destruct (Forall2_lookup_r _ _ _ _ _ E Hi) as (s & Hs & Hf).
    apply list_elem_of_lookup_2, list_elem_of_filter in Hs as [Ht Hs].
    apply Is_true_true in Ht.
    destruct (load_session_host s (Hfix s Hs)) as [Hn _].
    destruct (normalise_host_truthy_fixed _ Ht Hn) as (t & Hv & Hne).
    rewrite Hn, Hv in Hf. simpl in Hf. injection Hf as <-.
    split; [done|]. by exists s.
  - intros (Hne & s & Hs & Hh).
    assert (s ∈ filter (λ s, truthy (get "host" s)) l) as Hin.
    { apply list_elem_of_filter. split; [|done]. rewrite Hh. simpl.
      by destruct (String.eqb_spec h ""). }
    apply list_elem_of_lookup in Hin as [i Hi].
    destruct (Forall2_lookup_l _ _ _ _ _ E Hi) as (n & Hn & Hf).
    destruct (load_session_host s (Hfix s Hs)) as [Hnorm _].
    rewrite Hnorm, Hh in Hf. simpl in Hf. injection Hf as <-.
    by eapply list_elem_of_lookup_2.
Qed.

(** X14: the preview answers with the id the allocation gives over the
    loaded registry and with the date it is given.  Its hosts are the
    configured members when there are any; otherwise they are the
    non-empty normalised hosts of the sessions, each once, in ascending
    order of code points. *)
Theorem next_session_preview (stored : data) (today nid dt : string)
    (hosts : list string) :
  next_session stored today = Some (nid, dt, hosts) →
  ∃ loaded,
    load_data stored = Some loaded
    ∧ compute_next_id (sessions loaded) = Some nid
    ∧ dt = today
    ∧ match members stored with
      | Some (m :: ms) => hosts = m :: ms
      | _ =>
          StronglySorted (λ a b, String.leb a b = true) hosts
          ∧ NoDup hosts
          ∧ ∀ h, h ∈ hosts ↔
                 h ≠ "" ∧ ∃ s, s ∈ sessions loaded ∧ get "host" s = VStr h
      end.
Proof.
  unfold next_session. intros H.
  destruct (load_data stored) as [loaded|] eqn:Hload; simpl in H; [|done].
  destruct (compute_next_id (sessions loaded)) as [n|] eqn:Hn;
    simpl in H; [|done].
  exists loaded. split; [done|].
  pose proof (load_data_fixed _ _ Hload) as Hfix.
  assert (members loaded = members stored) as Hm
    by by apply load_data_sessions in Hload as [_ ?].
  rewrite Hm in H.
  destruct (members stored) as [[|m ms]|]; simpl in H.
  - destruct (session_hosts (sessions loaded)) as [hs|] eqn:Hh;
      simpl in H; [|done].
    injection H as <- <- <-. split; [done|]. split; [done|].
    by apply session_hosts_spec.
  - injection H as <- <- <-. by repeat split.
  - destruct (session_hosts (sessions loaded)) as [hs|] eqn:Hh;
      simpl in H; [|done].
    injection H as <- <- <-. split; [done|]. split; [done|].
    by apply session_hosts_spec.
Qed.

Lemma next_session_preview_witness :
  ∃ loaded,
    load_data (Data [<["host" := VStr "willie"]> (with_id "I:I");
                     <["host" := VStr " brass"]> (with_id "I:II");
                     <["host" := VStr "Joess"]> (with_id "I:III")] None)
    = Some loaded
    ∧ compute_next_id (sessions loaded) = Some "I:IV"
    ∧ "2026-11-04" = "2026-11-04"
    ∧ StronglySorted (λ a b, String.leb a b = true) ["Braas"; "Joess"]
      ∧ NoDup ["Braas"; "Joess"]
      ∧ ∀ h, h ∈ ["Braas"; "Joess"] ↔
             h ≠ "" ∧ ∃ s, s ∈ sessions loaded ∧ get "host" s = VStr h.
Proof.
  refine (next_session_preview
            (Data [<["host" := VStr "willie"]> (with_id "I:I");
                   <["host" := VStr " brass"]> (with_id "I:II");
                   <["host" := VStr "Joess"]> (with_id "I:III")] None)
            "2026-11-04" "I:IV" "2026-11-04" ["Braas"; "Joess"] _).
  vm_compute. reflexivity.
Defined.

(** ** Search: what the results are *)

Lemma search_pass_matches (ql : string) (whisky_of : session → value)
    (result_of : value → session → session)
    (acc acc' : gset string * list session) (s : session) :
  (∀ v x, get "whisky" (result_of v x) = v) →
  search_pass ql whisky_of result_of acc s = Some acc' →
  Forall (λ r, ∃ n, result_name r = Some n ∧ str_in ql n = true) acc.2 →
  Forall (λ r, ∃ n, result_name r = Some n ∧ str_in ql n = true) acc'.2.
Proof.
  intros Hw H Hall. unfold search_pass in H.
  destruct (py_lower (whisky_of s)) as [wl|] eqn:Hwl; simpl in H; [|done].
  destruct (str_in ql wl) eqn:Hin; simpl in H; [|by injection H as <-].
  destruct (negb (bool_decide (wl ∈ acc.1))); [|by injection H as <-].
  injection H as <-. simpl. apply Forall_app. split; [done|].
  constructor; [|done]. exists wl. unfold result_name. by rewrite Hw.
Qed.

Lemma search_loop_matches (ql : string) (whisky_of : session → value)
    (result_of : value → session → session) (l : list session)
    (acc acc' : gset string * list session) :
  (∀ v x, get "whisky" (result_of v x) = v) →
  for_each (search_pass ql whisky_of result_of) acc l = Some acc' →
  Forall (λ r, ∃ n, result_name r = Some n ∧ str_in ql n = true) acc.2 →
  Forall (λ r, ∃ n, result_name r = Some n ∧ str_in ql n = true) acc'.2.
Proof.
  intros Hw. revert acc. induction l as [|s l IH]; intros acc H Hall.
  - by injection H as <-.
  - simpl in H.
    destruct (search_pass ql whisky_of result_of acc s) as [acc1|] eqn:Hs;
      simpl in H; [|done].
    apply (IH acc1 H). by apply (search_pass_matches _ _ _ _ _ _ Hw Hs).
Qed.

Lemma search_matches_match (ql : string) (local library all : list session) :
  search_matches ql local library = Some all →
  Forall (λ r, ∃ n, result_name r = Some n ∧ str_in ql n = true) all.
Proof.
  unfold search_matches. intros H.
  destruct (for_each (search_pass ql local_whisky local_result) (∅, []) local)
    as [acc1|] eqn:H1; simpl in H; [|done].
  destruct (for_each (search_pass ql library_whisky library_result)
              acc1 library) as [acc2|] eqn:H2; simpl in H; [|done].
  injection H as <-.
  apply (search_loop_matches _ _ _ _ _ _
           (λ v x, proj1 (library_result_fields v x)) H2).
  apply (search_loop_matches _ _ _ _ _ _
           (λ v x, proj1 (local_result_fields v x)) H1).
  constructor.
Qed.

Lemma search_whisky_inv (stored : data) (library : list session)
    (q_arg : string) (results : list session) :
  search_whisky stored library q_arg = Some results →
  results = []
  ∨ ∃ loaded all,
      load_data stored = Some loaded
      ∧ search_matches (lower (strip q_arg)) (sessions loaded) library
        = Some all
      ∧ results = take 10 all.
Proof.
  unfold search_whisky.
  destruct (String.eqb (strip q_arg) "" || Nat.ltb _ 2);
    [intros [= <-]; by left|].
  destruct (load_data stored) as [loaded|]; simpl; [|done].
  destruct (search_matches _ _ _) as [all|] eqn:E; simpl; [|done].
  intros [= <-]. right. by exists loaded, all.
Qed.

(** X15: a search returns at most ten results; the lower-cased whisky
    name of every result contains the trimmed, lower-cased query; and no
    two results have the same lower-cased name. *)
Theorem search_whisky_results (stored : data) (library : list session)
    (q_arg : string) (results : list session) :
  search_whisky stored library q_arg = Some results →
  (length results ≤ 10)%nat
  ∧ Forall (λ r, ∃ n, result_name r = Some n
                      ∧ str_in (lower (strip q_arg)) n = true) results
  ∧ ∀ i j r r', results !! i = Some r → results !! j = Some r' →
                result_name r = result_name r' → i = j.
Proof.
  intros H. apply search_whisky_inv in H as [->|(loaded & all & _ & Hall & ->)].
  - split; [simpl; lia|]. split; [constructor|]. by intros [|i] j r r' Hi.
  - split; [rewrite length_take; lia|]. split.
    + apply Forall_take.
      by apply (search_matches_match _ (sessions loaded) library).
    + destruct (search_matches_spec _ _ _ _ Hall)
        as (res1 & res2 & ns1 & ns2 & -> & Hn1 & Hn2 & Hnodup & _).
      assert (Forall2 (λ r n, result_name r = Some n) (res1 ++ res2)
                (ns1 ++ ns2)) as Hn12 by by apply Forall2_app.
      intros i j r r' Hi Hj Hname.
      apply lookup_take_Some in Hi as [Hi _], Hj as [Hj _].
      destruct (Forall2_lookup_l _ _ _ _ _ Hn12 Hi) as (n & Hni & Hn).
      destruct (Forall2_lookup_l _ _ _ _ _ Hn12 Hj) as (n' & Hnj & Hn').
      assert (n = n') as <- by congruence.
      by apply (NoDup_lookup _ _ _ _ Hnodup Hni).
Qed.

Lemma search_whisky_results_witness :
  (length [local_result (VStr "Talisker 10")
             (<["host" := VNone]> (with_whisky "Talisker 10"))] ≤ 10)%nat
  ∧ Forall (λ r, ∃ n, result_name r = Some n
                      ∧ str_in (lower (strip "TALIS")) n = true)
      [local_result (VStr "Talisker 10")
         (<["host" := VNone]> (with_whisky "Talisker 10"))]
  ∧ ∀ i j r r',
      [local_result (VStr "Talisker 10")
         (<["host" := VNone]> (with_whisky "Talisker 10"))] !! i = Some r →
      [local_result (VStr "Talisker 10")
         (<["host" := VNone]> (with_whisky "Talisker 10"))] !! j = Some r' →
      result_name r = result_name r' → i = j.
Proof.
  refine (search_whisky_results
            (Data [with_whisky "Talisker 10"; with_whisky "TALISKER 10"] None)
            [with_whisky "talisker 10"] "TALIS" _ _).
  vm_compute. reflexivity.
Defined.

(** X16: in the results of a search every result from the session
    history comes before every result from the library. *)
Theorem search_whisky_local_first (stored : data) (library : list session)
    (q_arg : string) (results : list session) :
  search_whisky stored library q_arg = Some results →
  ∃ k, Forall (λ r, get "source" r = VStr "local") (take k results)
     ∧ Forall (λ r, get "source" r = VStr "library") (drop k results).
Proof.
  intros H. apply search_whisky_inv in H as [->|(loaded & all & _ & Hall & ->)].
  - exists 0. by split.
  - destruct (search_matches_spec _ _ _ _ Hall)
      as (res1 & res2 & ns1 & ns2 & -> & _ & _ & _ & Hs1 & Hs2 & _).
    exists (length (take 10 res1)). rewrite take_app.
    rewrite take_app_length, drop_app_length. split.
    + by apply Forall_take.
    + by apply Forall_take.
Qed.

Lemma search_whisky_local_first_witness :
  ∃ k, Forall (λ r, get "source" r = VStr "local")
         (take k [local_result (VStr "Oban 14")
                    (<["host" := VNone]> (with_whisky "Oban 14"));
                  library_result (VStr "Oban Little Bay")
                    (with_whisky "Oban Little Bay")])
     ∧ Forall (λ r, get "source" r = VStr "library")
         (drop k [local_result (VStr "Oban 14")
                    (<["host" := VNone]> (with_whisky "Oban 14"));
                  library_result (VStr "Oban Little Bay")
                    (with_whisky "Oban Little Bay")]).
Proof.
  refine (search_whisky_local_first
            (Data [with_whisky "Oban 14"] None)
            [with_whisky "Oban Little Bay"] "oban" _ _).
  vm_compute. reflexivity.
Defined.

Lemma search_guard_length (q : string) :
  (String.eqb q "" || Nat.ltb (String.length q) 2)
  = Nat.ltb (String.length q) 2.
Proof. by destruct (String.eqb_spec q "") as [->|]. Qed.

(** X17: a search depends on its query only through the length and the
    lower-cased form of the trimmed query: two queries whose trimmed forms
    have the same length and differ only in case get the same answer. *)
Theorem search_whisky_query_normalised (stored : data)
    (library : list session) (q1 q2 : string) :
  String.length (strip q1) = String.length (strip q2) →
  lower (strip q1) = lower (strip q2) →
  search_whisky stored library q1 = search_whisky stored library q2.
Proof.
  intros Hlen H. unfold search_whisky. rewrite !search_guard_length.
  by rewrite Hlen, H.
Qed.

Lemma search_whisky_query_normalised_witness :
  search_whisky (Data [with_whisky "Oban 14"] None) [] "  OBAN"
  = search_whisky (Data [with_whisky "Oban 14"] None) [] "oban ".
Proof. apply search_whisky_query_normalised; reflexivity. Defined.

(** ** Enrichment: what a batch changes *)

Lemma enrich_one_frame (lookup : string → option session) (s s' : session)
    (st : status) :
  enrich_one lookup s = Some (s', st) →
  (∀ k, k ≠ "image_url" → k ≠ "rrp" → k ≠ "dm_url" → s' !! k = s !! k)
  ∧ (truthy (get "image_url" s) = true →
     get "image_url" s' = get "image_url" s)
  ∧ (truthy (get "rrp" s) = true → get "rrp" s' = get "rrp" s)
  ∧ (truthy (get "dm_url" s) = true → truthy (get "dm_url" s') = true)
  ∧ (eligible s = false → s' = s).
Proof.
  intros H. apply enrich_one_inv in H. destruct st.
  - destruct H as (w & result & _ & _ & _ & -> & He).
    split; [by apply merge_result_other|].
    split; [intros Ht; by rewrite merge_result_image, Ht|].
    split; [intros Ht; by rewrite merge_result_rrp, Ht|].
    split; [|by rewrite He].
    intros Ht. rewrite merge_result_dm_url.
    by destruct (truthy (get "dm_url" result)) eqn:E.
  - by destruct H as [-> _].
  - by destruct H as [-> _].
Qed.

Lemma enrich_all_fixed (stored : data) (lookup : string → option session)
    (d' : data) (e f : nat) :
  enrich_all stored lookup = Some (d', e, f) →
  Forall (λ s, load_session s = Some s) (sessions d').
Proof.
  intros H. apply enrich_all_inv in H as (loaded & Hload & Hl & _).
  pose proof (load_data_fixed _ _ Hload) as Hfix.
  apply enrich_loop_Forall2 in Hl.
  induction Hl as [|s s' l l' [st Hs] _ IH]; [constructor|].
  apply Forall_cons in Hfix as [Hsfix Hfix]. constructor; [|by apply IH].
  destruct (enrich_one_frame _ _ _ _ Hs) as (Hother & _).
  destruct (load_session_host s Hsfix) as [Hn Hh].
  assert (s' !! "host" = Some (get "host" s)) as Hh'
    by by rewrite Hother.
  unfold load_session, get. rewrite Hh'. simpl. rewrite Hn. simpl.
  by rewrite insert_id.
Qed.



Lemma enrich_loop_no_enriched (lookup : string → option session)
    (l r : list session) (e f e' f' : nat) :
  (∀ w, lookup w = None) →
  enrich_loop lookup l e f = Some (r, e', f') → e' = e ∧ r = l.
Proof.
  intros Hdown. revert r e f e' f'.
  induction l as [|s l IH]; intros r e f e' f' H; simpl in H.
  - by injection H as <- <- _.
  - destruct (enrich_one lookup s) as [[s' st]|] eqn:Hs; simpl in H; [|done].
    destruct (enrich_loop lookup l _ _) as [[[r0 e0] f0]|] eqn:Hl;
      simpl in H; [|done].
    injection H as <- <- <-. apply IH in Hl as [-> ->].
    apply enrich_one_inv in Hs. destruct st.
    + destruct Hs as (w & result & _ & Hw & _). by rewrite Hdown in Hw.
    + by destruct Hs as [-> _].
    + by destruct Hs as [-> _].
Qed.

(** X19: when the lookup finds nothing for any query the batch goes
    through all the same: no record is counted as enriched, every eligible
    record is counted as failed, and what is saved is the loaded data. *)
Theorem enrich_all_lookup_down (stored : data)
    (lookup : string → option session) (d' : data) (enriched failed : nat) :
  (∀ w, lookup w = None) →
  enrich_all stored lookup = Some (d', enriched, failed) →
  enriched = 0
  ∧ failed = length (filter (λ s, eligible s) (sessions stored))
  ∧ load_data stored = Some d'.
Proof.
  intros Hdown H.
  assert (enriched + failed
          = length (filter (λ s, eligible s) (sessions stored))) as Hcount.
  { unfold enrich_all in H.
    destruct (load_data stored) as [loaded|] eqn:Hload; simpl in H; [|done].
    destruct (enrich_loop lookup (sessions loaded) 0 0)
      as [[[l e] f]|] eqn:Hl; simpl in H; [|done].
    injection H as <- <- <-. apply enrich_loop_counts in Hl as [-> _]. simpl.
    apply load_data_sessions in Hload as [HF _].
    induction HF as [|s s' k k' Hs _ IH]; [done|].
    rewrite !filter_cons, (load_session_eligible s s' Hs).
    destruct (decide (eligible s)); simpl; by rewrite IH. }
  apply enrich_all_inv in H as (loaded & Hload & Hl & Hm).
  apply (enrich_loop_no_enriched _ _ _ _ _ _ _ Hdown) in Hl as [-> Hsess].
  split; [done|]. split; [simpl in Hcount; lia|].
  rewrite Hload. f_equal. destruct d', loaded. simpl in *.
  apply load_data_sessions in Hload as [_ Hm']. simpl in Hm'. congruence.
Qed.

Lemma enrich_all_lookup_down_witness :
  0 = 0
  ∧ 1 = length (filter (λ s, eligible s) [with_whisky "Oban 14"; with_id "I:I"])
  ∧ load_data (Data [with_whisky "Oban 14"; with_id "I:I"] None)
    = Some (Data [<["host" := VNone]> (with_whisky "Oban 14");
                  stored_id "I:I"] None).
Proof.
  refine (enrich_all_lookup_down
            (Data [with_whisky "Oban 14"; with_id "I:I"] None) (λ _, None)
            (Data [<["host" := VNone]> (with_whisky "Oban 14");
                   stored_id "I:I"] None) 0 1 (λ _, eq_refl) _).
  vm_compute. reflexivity.
Defined.

Lemma enrich_loop_ineligible (lookup : string → option session)
    (l : list session) (e f : nat) :
  Forall (λ s, eligible s = false) l →
  enrich_loop lookup l e f = Some (l, e, f).
Proof.
  intros H. induction H as [|s l Hs _ IH]; [done|].
  simpl. unfold enrich_one. unfold eligible in Hs.
  destruct (truthy (get "whisky" s)); simpl in *.
  - apply negb_false_iff in Hs. rewrite Hs. simpl. by rewrite IH.
  - by rewrite IH.
Qed.

Lemma enrich_loop_complete (lookup : string → option session)
    (l r : list session) (e f e' f' : nat) :
  (∀ w, ∃ result, lookup w = Some result
                  ∧ truthy (get "image_url" result) = true
                  ∧ truthy (get "price" result) = true
                  ∧ truthy (get "dm_url" result) = true) →
  enrich_loop lookup l e f = Some (r, e', f') →
  f' = f ∧ Forall (λ s, eligible s = false) r.
Proof.
  intros Hc. revert r e f e' f'.
  induction l as [|s l IH]; intros r e f e' f' H; simpl in H.
  - by injection H as <- _ <-.
  - destruct (enrich_one lookup s) as [[s' st]|] eqn:Hs; simpl in H; [|done].
    destruct (enrich_loop lookup l _ _) as [[[r0 e0] f0]|] eqn:Hl;
      simpl in H; [|done].
    injection H as <- <- <-. apply IH in Hl as [-> Hr].
    apply enrich_one_inv in Hs. destruct st.
    + destruct Hs as (w & result & _ & Hw & _ & -> & _).
      split; [done|]. constructor; [|done].
      destruct (Hc w) as (result' & Hw' & Hi & Hp & Hd).
      rewrite Hw in Hw'. injection Hw' as <-.
      unfold eligible.
      rewrite merge_result_image, merge_result_rrp, merge_result_dm_url.
      rewrite Hi, Hp, Hd.
      destruct (truthy (get "image_url" s)) eqn:E1,
        (truthy (get "rrp" s)) eqn:E2;
        simpl; rewrite ?E1, ?E2, ?Hi, ?Hp, ?Hd; simpl; apply andb_false_r.
    + destruct Hs as [-> Hs]. split; [done|]. by constructor.
    + destruct Hs as (_ & _ & w & _ & Hs).
      destruct (Hc w) as (result' & Hw' & Hi & _).
      destruct Hs as [Hw|(result & Hw & Ht)]; rewrite Hw in Hw'; [done|].
      injection Hw' as <-. unfold dict_truthy in Ht.
      apply negb_false_iff, bool_decide_eq_true in Ht. by subst.
Qed.

(** X20: when the lookup answers every query with an image, a price and a
    product link, a batch counts no failure and leaves no record eligible;
    a second batch, whatever its lookup answers, then counts nothing and
    saves the same data: the batch is idempotent. *)
Theorem enrich_all_complete (stored : data)
    (lookup : string → option session) (d' : data) (enriched failed : nat) :
  (∀ w, ∃ result, lookup w = Some result
                  ∧ truthy (get "image_url" result) = true
                  ∧ truthy (get "price" result) = true
                  ∧ truthy (get "dm_url" result) = true) →
  enrich_all stored lookup = Some (d', enriched, failed) →
  failed = 0
  ∧ enriched = length (filter (λ s, eligible s) (sessions stored))
  ∧ Forall (λ s, eligible s = false) (sessions d')
  ∧ ∀ lookup', enrich_all d' lookup' = Some (d', 0, 0).
Proof.
  intros Hc H. pose proof (enrich_all_fixed _ _ _ _ _ H) as Hfix.
  assert (enriched + failed
          = length (filter (λ s, eligible s) (sessions stored))) as Hcount.
  { unfold enrich_all in H.
    destruct (load_data stored) as [loaded|] eqn:Hload; simpl in H; [|done].
    destruct (enrich_loop lookup (sessions loaded) 0 0)
      as [[[l e] f]|] eqn:Hl; simpl in H; [|done].
    injection H as <- <- <-. apply enrich_loop_counts in Hl as [-> _]. simpl.
    apply load_data_sessions in Hload as [HF _].
    induction HF as [|s s' k k' Hs _ IH]; [done|].
    rewrite !filter_cons, (load_session_eligible s s' Hs).
    destruct (decide (eligible s)); simpl; by rewrite IH. }
  apply enrich_all_inv in H as (loaded & Hload & Hl & Hm).
  apply (enrich_loop_complete _ _ _ _ _ _ _ Hc) in Hl as [-> Hin].
  split; [done|]. split; [lia|]. split; [done|].
  intros lookup'. unfold enrich_all.
  rewrite (load_data_of_fixed _ Hfix). simpl.
  rewrite (enrich_loop_ineligible _ _ _ _ Hin). simpl. by destruct d'.
Qed.

Lemma enrich_all_complete_witness :
  0 = 0
  ∧ 1 = length (filter (λ s, eligible s) [sample_record; with_id "I:I"])
  ∧ Forall (λ s, eligible s = false)
      [merge_result (<["host" := VNone]> sample_record) sample_result;
       stored_id "I:I"]
  ∧ ∀ lookup',
      enrich_all
        (Data [merge_result (<["host" := VNone]> sample_record) sample_result;
               stored_id "I:I"] None) lookup'
      = Some (Data [merge_result (<["host" := VNone]> sample_record)
                      sample_result; stored_id "I:I"] None, 0, 0).
Proof.
  refine (enrich_all_complete (Data [sample_record; with_id "I:I"] None)
            (λ _, Some sample_result)
            (Data [merge_result (<["host" := VNone]> sample_record)
                     sample_result; stored_id "I:I"] None) 1 0 _ _).
  - intros _. exists sample_result. split; [reflexivity|].
    repeat split; vm_compute; reflexivity.
  - vm_compute. reflexivity.
Defined.

(** ** The image search link *)

Lemma string_app_cons (c : ascii) (a b : string) :
  String c a +:+ b = String c (a +:+ b).
Proof. reflexivity. Qed.

Lemma string_app_assoc (a b c : string) : (a +:+ b) +:+ c = a +:+ (b +:+ c).
Proof.
  induction a as [|x a IH]; [done|]. by rewrite !string_app_cons, IH.
Qed.

Lemma string_app_length (a b : string) :
  String.length (a +:+ b) = String.length a + String.length b.
Proof.
  induction a as [|x a IH]; [done|]. rewrite string_app_cons. simpl.
  by rewrite IH.
Qed.

Lemma quote_app (a b : string) : quote (a +:+ b) = quote a +:+ quote b.
Proof.
  induction a as [|c a IH]; [done|].
  change (quote (String c a +:+ b)) with (quote_char c +:+ quote (a +:+ b)).
  change (quote (String c a)) with (quote_char c +:+ quote a).
  by rewrite IH, string_app_assoc.
Qed.

Lemma all_chars_app (p : ascii → bool) (a b : string) :
  all_chars p (a +:+ b) = all_chars p a && all_chars p b.
Proof.
  induction a as [|c a IH]; [done|]. rewrite string_app_cons. simpl.
  by rewrite IH, andb_assoc.
Qed.

Lemma quote_char_quoted (c : ascii) :
  all_chars quoted_char (quote_char c) = true.
Proof.
  destruct c as [[] [] [] [] [] [] [] []]; vm_compute; reflexivity.
Qed.

Lemma quote_quoted (s : string) : all_chars quoted_char (quote s) = true.
Proof.
  induction s as [|c s IH]; [done|].
  change (quote (String c s)) with (quote_char c +:+ quote s).
  by rewrite all_chars_app, quote_char_quoted, IH.
Qed.

Lemma unquote_quote_char (c : ascii) (rest : string) :
  unquote (quote_char c +:+ rest) = String c (unquote rest).
Proof. destruct c as [[] [] [] [] [] [] [] []]; reflexivity. Qed.

Lemma unquote_quote (s : string) : unquote (quote s) = s.
Proof.
  induction s as [|c s IH]; [done|].
  change (quote (String c s)) with (quote_char c +:+ quote s).
  by rewrite unquote_quote_char, IH.
Qed.

Lemma string_app_inj_r (a b c : string) : a +:+ c = b +:+ c → a = b.
Proof.
  intros H. apply (f_equal String.length) in H as Hlen.
  rewrite !string_app_length in Hlen.
  revert b H Hlen. induction a as [|x a IH]; intros [|y b] H Hlen;
    simpl in Hlen; try lia; [done|].
  rewrite !string_app_cons in H. injection H as -> H.
  f_equal. apply IH; [done|lia].
Qed.

(** X21: the link is absent exactly when the name is empty after trimming.
    Otherwise it is the search address followed by the quoted trimmed name,
    the quoted words "whisky bottle" and the image-search flag; the quoted
    name holds only letters, digits, [_ . - ~ /] and [%], so the name can
    neither end the parameter nor add one. *)
Theorem image_search_url_shape (name : string) :
  match image_search_url name with
  | None => strip name = ""
  | Some url =>
      strip name ≠ ""
      ∧ url = "https://www.google.com/search?q=" +:+ quote (strip name)
              +:+ "%20whisky%20bottle&tbm=isch"
      ∧ all_chars quoted_char (quote (strip name)) = true
  end.
Proof.
  unfold image_search_url.
  destruct (String.eqb_spec (strip name) "") as [E|E]; [done|].
  split; [done|]. split; [|apply quote_quoted].
  rewrite quote_app. f_equal. by rewrite string_app_assoc.
Qed.

(** X22: quoting loses nothing: two names that differ after trimming get
    different links. *)
Theorem image_search_url_injective (a b : string) (url : string) :
  image_search_url a = Some url → image_search_url b = Some url →
  strip a = strip b.
Proof.
  unfold image_search_url.
  destruct (String.eqb (strip a) ""); [done|].
  destruct (String.eqb (strip b) ""); [done|].
  intros [= <-] [= H]. apply (inj (String.append _)) in H.
  apply string_app_inj_r in H.
  apply (f_equal unquote) in H. rewrite !unquote_quote in H.
  by apply string_app_inj_r in H.
Qed.

Lemma image_search_url_injective_witness :
  strip " Caol Ila 12" = strip "Caol Ila 12  ".
Proof.
  apply (image_search_url_injective " Caol Ila 12" "Caol Ila 12  "
           "https://www.google.com/search?q=Caol%20Ila%2012%20whisky%20bottle&tbm=isch");
    vm_compute; reflexivity.
Defined.
